(** * Pegasus shell helpers (src/shell/command_helper.h)

    A shallow embedding of the scan pipeline ([scan_data_next]), the top-K
    row container ([top_container]), the remote-command fan-out
    ([call_remote_command]) and the perf-counter aggregation
    ([parse_app_pegasus_perf_counter_name], [update_app_pegasus_perf_counter],
    [get_app_stat]), followed by the properties established for them.

    Integers of the source ([int], [long], [size_t]) are values of [Z] with
    the conversions written out; [std::string] is [string] (a sequence of
    bytes); [double] is the primitive binary64 [float]. *)

From Stdlib Require Import ZArith List String Ascii Bool Lia Floats DecimalString.
From stdpp Require Import gmap strings list.

Local Open Scope Z_scope.

(* ===================================================================== *)
(** * Part I. The embedding                                               *)
(* ===================================================================== *)

(** ** Machine integers *)

(** Conversion of a signed value to [size_t] (64-bit unsigned). *)
Definition to_size_t (n : Z) : Z := n mod 2 ^ 64.

(** Conversion to [int] / [int32_t]: two's complement truncation. *)
Definition to_int32 (n : Z) : Z := (n + 2 ^ 31) mod 2 ^ 32 - 2 ^ 31.

(** Saturation to the range of [long] (64 bits), as [strtol] does. *)
Definition clamp_long (n : Z) : Z := Z.max (- 2 ^ 63) (Z.min (2 ^ 63 - 1) n).

(* --------------------------------------------------------------------- *)
(** ** [class top_container] *)

Module top_container.

Record top_heap_item := mk_item {
  hash_key : string;
  sort_key : string;
  row_size : Z
}.

(** [top_heap_compare::operator()]: [i1.row_size < i2.row_size]. *)
Definition top_heap_compare (i1 i2 : top_heap_item) : bool :=
  row_size i1 <? row_size i2.

(** [std::priority_queue<top_heap_item, std::vector<..>, top_heap_compare>].
    The standard fixes its observable behaviour: [top()] is an element that
    no other element exceeds under the comparison (with a less-than
    comparison: a largest element), [pop()] removes that element, [emplace]
    adds one.  The queue is represented by its elements in non-increasing
    order of the comparison, which is one of the arrangements a binary heap
    may have; which of several items of equal [row_size] is on top is left
    open by the standard, and here the earliest inserted one is. *)
Definition top_heap := list top_heap_item.

Fixpoint emplace (x : top_heap_item) (h : top_heap) : top_heap :=
  match h with
  | [] => [x]
  | y :: h' => if top_heap_compare y x then x :: y :: h' else y :: emplace x h'
  end.

(** [top()]: [None] stands for the undefined behaviour of [top()] on an
    empty queue. *)
Definition top (h : top_heap) : option top_heap_item := head h.

Definition pop (h : top_heap) : top_heap := tail h.

Record t := mk {
  _count : Z;          (* int _count *)
  _heap : top_heap
}.

(** [top_container(int count)]. *)
Definition new (count : Z) : t := {| _count := count; _heap := [] |}.

(** [push].  [_heap.size() < _count] compares a [size_t] with an [int], so
    [_count] is converted to [size_t].  The result is [None] when the call
    reaches [_heap.top()] on an empty heap. *)
Definition push (c : t) (hk sk : string) (rs : Z) : option t :=
  if Z.of_nat (length (_heap c)) <? to_size_t (_count c) then
    Some {| _count := _count c; _heap := emplace (mk_item hk sk rs) (_heap c) |}
  else
    match top (_heap c) with
    | None => None
    | Some tp =>
        if row_size tp <? rs then
          Some {| _count := _count c;
                  _heap := emplace (mk_item hk sk rs) (pop (_heap c)) |}
        else Some c
    end.

(** [all()]. *)
Definition all (c : t) : top_heap := _heap c.

(** The order in which the queue is kept: no item is larger than an item
    before it. *)
Fixpoint descending (h : top_heap) : Prop :=
  match h with
  | [] => True
  | x :: h' => Forall (fun y => row_size y <= row_size x) h' /\ descending h'
  end.

(** A sequence of [push] calls, in order. *)
Fixpoint push_all (c : t) (rows : list (string * string * Z)) : option t :=
  match rows with
  | [] => Some c
  | (hk, sk, rs) :: rows' =>
      match push c hk sk rs with
      | None => None
      | Some c' => push_all c' rows'
      end
  end.

(** The item that a [push] leaves out of the container: the incoming item
    when it is rejected, the former top when it is replaced, none when the
    incoming item is added to a container with room.  (Not in the source:
    used to state which rows a run has dropped.) *)
Definition push_dropped (c : t) (hk sk : string) (rs : Z) : option top_heap_item :=
  if Z.of_nat (length (_heap c)) <? to_size_t (_count c) then None
  else
    match top (_heap c) with
    | None => None
    | Some tp => if row_size tp <? rs then Some tp else Some (mk_item hk sk rs)
    end.

Fixpoint dropped_all (c : t) (rows : list (string * string * Z)) : list top_heap_item :=
  match rows with
  | [] => []
  | (hk, sk, rs) :: rows' =>
      match push c hk sk rs with
      | None => []
      | Some c' =>
          match push_dropped c hk sk rs with
          | None => dropped_all c' rows'
          | Some d => d :: dropped_all c' rows'
          end
      end
  end.

End top_container.

(* --------------------------------------------------------------------- *)
(** ** Strings of the C++ and C libraries *)

Module cstr.

(** [std::string::npos]. *)
Definition npos : Z := 2 ^ 64 - 1.

Fixpoint find_last_of_from (c : ascii) (s : string) (i acc : Z) : Z :=
  match s with
  | EmptyString => acc
  | String a s' => find_last_of_from c s' (i + 1) (if Ascii.eqb a c then i else acc)
  end.

(** [s.find_last_of(c)]: the index of the last [c] in [s], or [npos]. *)
Definition find_last_of (c : ascii) (s : string) : Z := find_last_of_from c s 0 npos.

Fixpoint drop (s : string) (pos : Z) : string :=
  match s with
  | EmptyString => EmptyString
  | String _ s' => if 0 <? pos then drop s' (pos - 1) else s
  end.

Fixpoint take (s : string) (n : Z) : string :=
  match s with
  | EmptyString => EmptyString
  | String c s' => if 0 <? n then String c (take s' (n - 1)) else EmptyString
  end.

(** [s.substr(pos, n)] for [pos <= s.size()]: the characters from [pos],
    at most [n] of them.  (For [pos > s.size()] the C++ function throws;
    the parser below never calls it so, see [substr_pos_in_range].) *)
Definition substr (s : string) (pos n : Z) : string := take (drop s pos) n.

(** The C string that starts at [s.c_str() + pos]: it ends at the first
    NUL byte. *)
Fixpoint until_nul (s : string) : string :=
  match s with
  | EmptyString => EmptyString
  | String c s' => if Ascii.eqb c Ascii.zero then EmptyString else String c (until_nul s')
  end.

Definition c_str_from (s : string) (pos : Z) : string := until_nul (drop s pos).

(** [isspace] and [isdigit] in the C locale. *)
Definition isspace (c : ascii) : bool :=
  let n := Z.of_nat (nat_of_ascii c) in (n =? 32) || ((9 <=? n) && (n <=? 13)).

Definition isdigit (c : ascii) : bool :=
  let n := Z.of_nat (nat_of_ascii c) in (48 <=? n) && (n <=? 57).

Definition digit_value (c : ascii) : Z := Z.of_nat (nat_of_ascii c) - 48.

Fixpoint skip_space (s : string) : string :=
  match s with
  | EmptyString => EmptyString
  | String c s' => if isspace c then skip_space s' else s
  end.

(** The longest run of decimal digits at the start of [s], with its value. *)
Fixpoint scan_digits (s : string) (acc : Z) : Z * string :=
  match s with
  | EmptyString => (acc, EmptyString)
  | String c s' => if isdigit c then scan_digits s' (10 * acc + digit_value c) else (acc, s)
  end.

Inductive conversion :=
| Converted (v : Z) (rest : string)
| MatchingFailure
| InputFailure.

(** One [%d] directive: white space is skipped, then an optional sign and
    at least one digit are read; a sign with no digit after it is a
    matching failure.  The value is stored in an [int]; for a value out of
    range the C standard leaves the result open, and the model follows
    glibc (the value saturates to [long], then is truncated). *)
Definition scan_d (s : string) : conversion :=
  match skip_space s with
  | EmptyString => InputFailure
  | String c s1 =>
      let neg := Ascii.eqb c "-" in
      let s2 := if neg || Ascii.eqb c "+" then s1 else String c s1 in
      match s2 with
      | EmptyString => MatchingFailure
      | String d _ =>
          if isdigit d then
            let '(v, rest) := scan_digits s2 0 in
            Converted (to_int32 (clamp_long (if neg then - v else v))) rest
          else MatchingFailure
      end
  end.

(** The outcome of [sscanf(input, "%d.%d", &a, &b)]. *)
Inductive scanned :=
| Scan_EOF
| Scan_0
| Scan_1 (a : Z)
| Scan_2 (a b : Z).

(** The value [sscanf] returns. *)
Definition scanned_n (r : scanned) : Z :=
  match r with
  | Scan_EOF => -1
  | Scan_0 => 0
  | Scan_1 _ => 1
  | Scan_2 _ _ => 2
  end.

Definition sscanf_d_dot_d (input : string) : scanned :=
  match scan_d input with
  | InputFailure => Scan_EOF
  | MatchingFailure => Scan_0
  | Converted a rest =>
      match rest with
      | String "." rest' =>
          match scan_d rest' with
          | Converted b _ => Scan_2 a b
          | _ => Scan_1 a
          end
      | _ => Scan_1 a
      end
  end.

End cstr.

(* --------------------------------------------------------------------- *)
(** ** [parse_app_pegasus_perf_counter_name] *)

(** [Some (app_id, partition_index, counter_name)] when the function returns
    [true], with the values it has stored through its reference parameters;
    [None] when it returns [false] (no caller reads the parameters then). *)
Definition parse_app_pegasus_perf_counter_name (name : string)
  : option (Z * Z * string) :=
  let find := cstr.find_last_of "@" name in
  if find =? cstr.npos then None
  else
    match cstr.sscanf_d_dot_d (cstr.c_str_from name (find + 1)) with
    | cstr.Scan_2 app_id partition_index =>
        let find2 := cstr.find_last_of "*" name in
        if find2 =? cstr.npos then None
        else
          Some (app_id, partition_index,
                cstr.substr name (find2 + 1) (to_size_t (find - find2 - 1)))
    | _ => None   (* n != 2 *)
    end.

(* --------------------------------------------------------------------- *)
(** ** The scan pipeline: [scan_data_context] and [scan_data_next] *)

Module scan.

Inductive scan_data_operator := SCAN_COPY | SCAN_CLEAR | SCAN_COUNT | SCAN_GEN_GEO.

(** The error codes of the client, as far as the pipeline tells them apart:
    it compares a code with [PERR_OK] and with [PERR_SCAN_COMPLETE] only
    (their numeric values are in pegasus/error.h). *)
Inductive perr := PERR_OK | PERR_SCAN_COMPLETE | PERR_FAILED (code : Z).

Definition is_ok (e : perr) : bool :=
  match e with PERR_OK => true | _ => false end.

(** The fields of [scan_data_context] that its constructor sets and that
    nothing writes afterwards.  The scanner, the client and the geo client
    are collaborators: they appear as the requests sent to them. *)
Record scan_data_context := {
  op : scan_data_operator;
  split_id : Z;
  max_batch_count : Z;
  timeout_ms : Z;
  stat_size : bool;
  top_count : Z
}.

(** The fields that the callbacks of one split share and update.  The
    atomic counters are 64 bits wide; they are not wrapped here (a wrap
    needs 2^63 requests or rows). *)
Record split_state := {
  error_occurred : bool;          (* *error_occurred, shared by the splits of a job *)
  split_rows : Z;
  split_request_count : Z;
  split_completed : bool;
  hash_key_size_histogram : list Z;
  sort_key_size_histogram : list Z;
  value_size_histogram : list Z;
  row_size_histogram : list Z;
  top_rows : top_container.t
}.

Inductive histogram := Hash_key_size | Sort_key_size | Value_size | Row_size.

(** An asynchronous operation handed to a collaborator, with the timeout
    it is given ([async_next] takes none). *)
Inductive request :=
| Async_next
| Async_set (hash_key sort_key value : string) (timeout : Z)
| Async_del (hash_key sort_key : string) (timeout : Z)
| Geo_async_set (hash_key sort_key value : string) (timeout : Z).

(** What a collaborator passes to the callback of a request. *)
Inductive reply :=
| Next_reply (ret : perr) (hash_key sort_key value : string)
| Op_reply (err : perr).

(** The lines written to [stderr]. *)
Inductive failure := Scan_next_failed | Async_set_failed | Async_del_failed.

Record message := ERROR { failed : failure; at_split : Z; with_error : perr }.

(** The operations of the code on shared state, one atomic step each. *)
Inductive action :=
| Inc_request_count                 (* split_request_count++ *)
| Dec_request_count                 (* split_request_count-- *)
| Inc_rows                          (* split_rows++ *)
| Store_completed                   (* split_completed.store(true) *)
| Store_error                       (* error_occurred->store(true) *)
| Fprintf (m : message)
| Issue (r : request)
| Hist_add (h : histogram) (v : Z)
| Top_push (hash_key sort_key : string) (row_size : Z).

(** The code that a thread has still to run.  The operations that read
    shared state pass what they read to the rest of the code. *)
Inductive prog :=
| Done
| Do (a : action) (k : prog)
| Load_completed (k : bool -> prog)            (* split_completed.load() *)
| Load_error (k : bool -> prog)                (* error_occurred->load() *)
| Load_count_lt (bound : Z) (k : bool -> prog) (* split_request_count.load() < bound *)
| Exchange_completed (k : bool -> prog)        (* split_completed.exchange(true) *)
| Call_scan_data_next (k : prog).              (* scan_data_next(context); then k *)

Definition byte_size (s : string) : Z := Z.of_nat (String.length s).

(** The tail of every callback: [split_request_count--]. *)
Definition release : prog := Do Dec_request_count Done.

(** [scan_data_next]: one evaluation of the loop condition and, when it
    holds, one turn of the loop body; [k] is what the caller does after the
    loop. *)
Definition scan_data_next (context : scan_data_context) (k : prog) : prog :=
  Load_completed (fun completed =>
    if completed then k
    else Load_error (fun error =>
      if error then k
      else Load_count_lt (max_batch_count context) (fun below =>
        if below then
          Do Inc_request_count (Do (Issue Async_next) (Call_scan_data_next k))
        else k))).

(** The branch taken on a failure, in each of the four callbacks. *)
Definition on_failure (context : scan_data_context) (f : failure) (err : perr) : prog :=
  Exchange_completed (fun was_completed =>
    if was_completed then release
    else Do (Fprintf (ERROR f (split_id context) err)) (Do Store_error release)).

(** The callback given to [async_set], [async_del] and the geo client's
    [async_set]. *)
Definition on_op_done (context : scan_data_context) (f : failure) (err : perr) : prog :=
  if is_ok err then Do Inc_rows (Call_scan_data_next release)
  else on_failure context f err.

(** The [SCAN_COUNT] case. *)
Definition count_row (context : scan_data_context) (hash_key sort_key value : string) : prog :=
  let next := Call_scan_data_next release in
  Do Inc_rows
    (if stat_size context then
       let hash_key_size := byte_size hash_key in
       let sort_key_size := byte_size sort_key in
       let value_size := byte_size value in
       let row_size := hash_key_size + sort_key_size + value_size in
       Do (Hist_add Hash_key_size hash_key_size)
         (Do (Hist_add Sort_key_size sort_key_size)
           (Do (Hist_add Value_size value_size)
             (Do (Hist_add Row_size row_size)
               (if 0 <? top_count context then
                  Do (Top_push hash_key sort_key row_size) next
                else next))))
     else next).

(** The callback given to [async_next].  The [default] case of the switch
    ([dassert(false)]) is for a value of [op] outside the enumeration; the
    four values of [scan_data_operator] have a case each. *)
Definition on_next (context : scan_data_context)
    (ret : perr) (hash_key sort_key value : string) : prog :=
  match ret with
  | PERR_OK =>
      match op context with
      | SCAN_COPY =>
          Do Inc_request_count
            (Do (Issue (Async_set hash_key sort_key value (timeout_ms context))) release)
      | SCAN_CLEAR =>
          Do Inc_request_count
            (Do (Issue (Async_del hash_key sort_key (timeout_ms context))) release)
      | SCAN_COUNT => count_row context hash_key sort_key value
      | SCAN_GEN_GEO =>
          Do Inc_request_count
            (Do (Issue (Geo_async_set hash_key sort_key value (timeout_ms context))) release)
      end
  | PERR_SCAN_COMPLETE => Do Store_completed release
  | PERR_FAILED _ => on_failure context Scan_next_failed ret
  end.

(** The callback that a request runs on completion. *)
Definition callback (context : scan_data_context) (r : request) (y : reply) : option prog :=
  match r, y with
  | Async_next, Next_reply ret hk sk v => Some (on_next context ret hk sk v)
  | Async_set _ _ _ _, Op_reply err => Some (on_op_done context Async_set_failed err)
  | Async_del _ _ _, Op_reply err => Some (on_op_done context Async_del_failed err)
  | Geo_async_set _ _ _ _, Op_reply err => Some (on_op_done context Async_set_failed err)
  | _, _ => None
  end.

(** *** Threads and their interleaving *)

(** What a thread has done: its atomic steps with the values it read. *)
Inductive event :=
| Ev_load_completed (b : bool)
| Ev_load_error (b : bool)
| Ev_load_count_lt (bound : Z) (b : bool)
| Ev_exchange_completed (was : bool)
| Ev_do (a : action).

(** A thread: the code it has still to run and its steps so far, the most
    recent first. *)
Record thread := { code : prog; hist : list event }.

(** A split at run time: the shared fields, the requests that have been
    issued and have not completed, the threads (the caller of
    [scan_data_next] and the callbacks), and what was written to [stderr]. *)
Record state := {
  mem : split_state;
  pending : list request;
  threads : list thread;
  stderr : list message
}.

Definition set_error (b : bool) (m : split_state) : split_state :=
  {| error_occurred := b; split_rows := split_rows m;
     split_request_count := split_request_count m; split_completed := split_completed m;
     hash_key_size_histogram := hash_key_size_histogram m;
     sort_key_size_histogram := sort_key_size_histogram m;
     value_size_histogram := value_size_histogram m;
     row_size_histogram := row_size_histogram m; top_rows := top_rows m |}.

Definition set_rows (n : Z) (m : split_state) : split_state :=
  {| error_occurred := error_occurred m; split_rows := n;
     split_request_count := split_request_count m; split_completed := split_completed m;
     hash_key_size_histogram := hash_key_size_histogram m;
     sort_key_size_histogram := sort_key_size_histogram m;
     value_size_histogram := value_size_histogram m;
     row_size_histogram := row_size_histogram m; top_rows := top_rows m |}.

Definition set_request_count (n : Z) (m : split_state) : split_state :=
  {| error_occurred := error_occurred m; split_rows := split_rows m;
     split_request_count := n; split_completed := split_completed m;
     hash_key_size_histogram := hash_key_size_histogram m;
     sort_key_size_histogram := sort_key_size_histogram m;
     value_size_histogram := value_size_histogram m;
     row_size_histogram := row_size_histogram m; top_rows := top_rows m |}.

Definition set_completed (b : bool) (m : split_state) : split_state :=
  {| error_occurred := error_occurred m; split_rows := split_rows m;
     split_request_count := split_request_count m; split_completed := b;
     hash_key_size_histogram := hash_key_size_histogram m;
     sort_key_size_histogram := sort_key_size_histogram m;
     value_size_histogram := value_size_histogram m;
     row_size_histogram := row_size_histogram m; top_rows := top_rows m |}.

Definition add_sample (h : histogram) (v : Z) (m : split_state) : split_state :=
  {| error_occurred := error_occurred m; split_rows := split_rows m;
     split_request_count := split_request_count m; split_completed := split_completed m;
     hash_key_size_histogram :=
       match h with Hash_key_size => v :: hash_key_size_histogram m | _ => hash_key_size_histogram m end;
     sort_key_size_histogram :=
       match h with Sort_key_size => v :: sort_key_size_histogram m | _ => sort_key_size_histogram m end;
     value_size_histogram :=
       match h with Value_size => v :: value_size_histogram m | _ => value_size_histogram m end;
     row_size_histogram :=
       match h with Row_size => v :: row_size_histogram m | _ => row_size_histogram m end;
     top_rows := top_rows m |}.

Definition set_top_rows (c : top_container.t) (m : split_state) : split_state :=
  {| error_occurred := error_occurred m; split_rows := split_rows m;
     split_request_count := split_request_count m; split_completed := split_completed m;
     hash_key_size_histogram := hash_key_size_histogram m;
     sort_key_size_histogram := sort_key_size_histogram m;
     value_size_histogram := value_size_histogram m;
     row_size_histogram := row_size_histogram m; top_rows := c |}.

(** The effect of an action on the shared fields ([Issue] and [Fprintf]
    leave them as they are).  [None]: the push is undefined. *)
Definition do_action (a : action) (m : split_state) : option split_state :=
  match a with
  | Inc_request_count => Some (set_request_count (split_request_count m + 1) m)
  | Dec_request_count => Some (set_request_count (split_request_count m - 1) m)
  | Inc_rows => Some (set_rows (split_rows m + 1) m)
  | Store_completed => Some (set_completed true m)
  | Store_error => Some (set_error true m)
  | Fprintf _ => Some m
  | Issue _ => Some m
  | Hist_add h v => Some (add_sample h v m)
  | Top_push hk sk rs =>
      match top_container.push (top_rows m) hk sk rs with
      | Some c => Some (set_top_rows c m)
      | None => None
      end
  end.

Definition issued (a : action) : list request :=
  match a with Issue r => [r] | _ => [] end.

Definition printed (a : action) : list message :=
  match a with Fprintf m => [m] | _ => [] end.

(** The outcome of one step of a thread. *)
Record stepped := {
  new_mem : split_state;
  new_thread : thread;
  new_requests : list request;
  new_messages : list message
}.

(** One atomic step of a thread on the shared fields [m]. *)
Definition step_thread (context : scan_data_context) (m : split_state) (t : thread)
  : option stepped :=
  match code t with
  | Done => None
  | Do a k =>
      match do_action a m with
      | Some m' =>
          Some {| new_mem := m'; new_thread := {| code := k; hist := Ev_do a :: hist t |};
                  new_requests := issued a; new_messages := printed a |}
      | None => None
      end
  | Load_completed k =>
      let b := split_completed m in
      Some {| new_mem := m;
              new_thread := {| code := k b; hist := Ev_load_completed b :: hist t |};
              new_requests := []; new_messages := [] |}
  | Load_error k =>
      let b := error_occurred m in
      Some {| new_mem := m;
              new_thread := {| code := k b; hist := Ev_load_error b :: hist t |};
              new_requests := []; new_messages := [] |}
  | Load_count_lt bound k =>
      let b := split_request_count m <? bound in
      Some {| new_mem := m;
              new_thread := {| code := k b; hist := Ev_load_count_lt bound b :: hist t |};
              new_requests := []; new_messages := [] |}
  | Exchange_completed k =>
      let b := split_completed m in
      Some {| new_mem := set_completed true m;
              new_thread := {| code := k b; hist := Ev_exchange_completed b :: hist t |};
              new_requests := []; new_messages := [] |}
  | Call_scan_data_next k =>
      Some {| new_mem := m;
              new_thread := {| code := scan_data_next context k; hist := hist t |};
              new_requests := []; new_messages := [] |}
  end.

(** What may happen next to a split: a thread takes a step; a request
    completes and its callback starts, as a thread of its own (the callbacks
    run on a thread pool); another split of the job sets the shared flag. *)
Inductive label :=
| Run (tid : nat)
| Deliver (i : nat) (y : reply)
| Other_split_fails.

Definition exec (context : scan_data_context) (l : label) (s : state) : option state :=
  match l with
  | Run tid =>
      match threads s !! tid with
      | Some t =>
          match step_thread context (mem s) t with
          | Some r =>
              Some {| mem := new_mem r;
                      pending := pending s ++ new_requests r;
                      threads := <[tid := new_thread r]> (threads s);
                      stderr := stderr s ++ new_messages r |}
          | None => None
          end
      | None => None
      end
  | Deliver i y =>
      match pending s !! i with
      | Some r =>
          match callback context r y with
          | Some p =>
              Some {| mem := mem s;
                      pending := delete i (pending s);
                      threads := threads s ++ [{| code := p; hist := [] |}];
                      stderr := stderr s |}
          | None => None
          end
      | None => None
      end
  | Other_split_fails =>
      Some {| mem := set_error true (mem s); pending := pending s;
              threads := threads s; stderr := stderr s |}
  end.

Fixpoint run (context : scan_data_context) (ls : list label) (s : state) : option state :=
  match ls with
  | [] => Some s
  | l :: ls' =>
      match exec context l s with
      | Some s' => run context ls' s'
      | None => None
      end
  end.

(** The state in which the caller, having built the context, calls
    [scan_data_next(context)]. *)
Definition init (context : scan_data_context) : state :=
  {| mem := {| error_occurred := false; split_rows := 0; split_request_count := 0;
               split_completed := false;
               hash_key_size_histogram := []; sort_key_size_histogram := [];
               value_size_histogram := []; row_size_histogram := [];
               top_rows := top_container.new (top_count context) |};
     pending := [];
     threads := [{| code := Call_scan_data_next Done; hist := [] |}];
     stderr := [] |}.

Definition reachable (context : scan_data_context) (s : state) : Prop :=
  exists ls, run context ls (init context) = Some s.

(** *** Vocabulary of the properties *)

(** The steps a thread takes from the loop condition to a fetch: the three
    loads, each with the value that lets the loop go on, and the increment. *)
Definition checked_then_incremented (context : scan_data_context) (h : list event) : Prop :=
  exists h', h = Ev_do Inc_request_count
                 :: Ev_load_count_lt (max_batch_count context) true
                 :: Ev_load_error false
                 :: Ev_load_completed false :: h'.

(** Every fetch in a history comes right after those steps. *)
Fixpoint fetches_checked (context : scan_data_context) (h : list event) : Prop :=
  match h with
  | [] => True
  | e :: h' =>
      (e = Ev_do (Issue Async_next) -> checked_then_incremented context h')
      /\ fetches_checked context h'
  end.

(** The timeout a request carries. *)
Definition request_timeout (r : request) : option Z :=
  match r with
  | Async_next => None
  | Async_set _ _ _ t => Some t
  | Async_del _ _ t => Some t
  | Geo_async_set _ _ _ t => Some t
  end.

(** The requests a thread has issued, the most recent first. *)
Fixpoint issued_by (h : list event) : list request :=
  match h with
  | [] => []
  | Ev_do (Issue r) :: h' => r :: issued_by h'
  | _ :: h' => issued_by h'
  end.

Definition timeout_is (t : Z) (r : request) : Prop :=
  match request_timeout r with
  | Some t' => t' = t
  | None => True
  end.

(** *** Measures on code, for the invariants *)

(** The code issues a fetch only right after the checked steps, whatever
    the loads return: [h] is the history the code starts from. *)
Fixpoint will_check (context : scan_data_context) (p : prog) (h : list event) : Prop :=
  match p with
  | Done => True
  | Do a k =>
      (a = Issue Async_next -> checked_then_incremented context h)
      /\ will_check context k (Ev_do a :: h)
  | Load_completed k => forall b, will_check context (k b) (Ev_load_completed b :: h)
  | Load_error k => forall b, will_check context (k b) (Ev_load_error b :: h)
  | Load_count_lt bound k => forall b, will_check context (k b) (Ev_load_count_lt bound b :: h)
  | Exchange_completed k => forall b, will_check context (k b) (Ev_exchange_completed b :: h)
  | Call_scan_data_next k => forall h', will_check context k h'
  end.

(** Every request the code may issue carries the timeout [t]. *)
Fixpoint will_carry (t : Z) (p : prog) : Prop :=
  match p with
  | Done => True
  | Do a k => (forall r, a = Issue r -> timeout_is t r) /\ will_carry t k
  | Load_completed k => forall b, will_carry t (k b)
  | Load_error k => forall b, will_carry t (k b)
  | Load_count_lt _ k => forall b, will_carry t (k b)
  | Exchange_completed k => forall b, will_carry t (k b)
  | Call_scan_data_next k => will_carry t k
  end.

(** The number of lines the code may still print without winning an
    exchange on [split_completed] first. *)
Fixpoint debt (p : prog) : nat :=
  match p with
  | Done => 0
  | Do (Fprintf _) k => S (debt k)
  | Do _ k => debt k
  | Load_completed k => Nat.max (debt (k true)) (debt (k false))
  | Load_error k => Nat.max (debt (k true)) (debt (k false))
  | Load_count_lt _ k => Nat.max (debt (k true)) (debt (k false))
  | Exchange_completed k => debt (k true)
  | Call_scan_data_next k => debt k
  end.

(** After an exchange that finds the flag unset the code prints at most
    one line. *)
Fixpoint one_line_per_win (p : prog) : Prop :=
  match p with
  | Done => True
  | Do _ k => one_line_per_win k
  | Load_completed k => one_line_per_win (k true) /\ one_line_per_win (k false)
  | Load_error k => one_line_per_win (k true) /\ one_line_per_win (k false)
  | Load_count_lt _ k => one_line_per_win (k true) /\ one_line_per_win (k false)
  | Exchange_completed k =>
      (debt (k false) <= 1)%nat /\ one_line_per_win (k true) /\ one_line_per_win (k false)
  | Call_scan_data_next k => one_line_per_win k
  end.

Definition owed (ts : list thread) : nat := sum_list_with (fun t => debt (code t)) ts.

(** A thread has issued, and will issue, fetches only after the checks. *)
Definition checks_before_fetches (context : scan_data_context) (t : thread) : Prop :=
  fetches_checked context (hist t) /\ will_check context (code t) (hist t).

(** A thread has given, and will give, the timeout of the context to every
    request that takes one. *)
Definition carries_timeout (context : scan_data_context) (t : thread) : Prop :=
  Forall (timeout_is (timeout_ms context)) (issued_by (hist t))
  /\ will_carry (timeout_ms context) (code t).

(** The lines printed so far and the lines owed by the threads are one at
    most, and none while [split_completed] is unset. *)
Definition lines_bounded (s : state) : Prop :=
  (length (stderr s) + owed (threads s) <= if split_completed (mem s) then 1 else 0)%nat.

(** A reply that reports a failure: a fetch that ends with an error other
    than the end of the data, or a set, delete or geo set that ends with
    anything but [PERR_OK]. *)
Definition failing (y : reply) : bool :=
  match y with
  | Next_reply (PERR_FAILED _) _ _ _ => true
  | Next_reply _ _ _ _ => false
  | Op_reply err => negb (is_ok err)
  end.

(** *** Measures on code, for the budget *)

(** The requests that the code issues before it next reads shared state:
    the requests it is bound to issue. *)
Fixpoint commit (p : prog) : Z :=
  match p with
  | Do (Issue _) k => 1 + commit k
  | Do _ k => commit k
  | _ => 0
  end.

(** What the code will, in all, take off the request count, beyond what
    it adds to it for requests that it issues: the slots of the count that
    the thread holds. *)
Fixpoint slots (p : prog) : Z :=
  match p with
  | Done => 0
  | Do Inc_request_count k => slots k - 1
  | Do Dec_request_count k => slots k + 1
  | Do (Issue _) k => slots k + 1
  | Do _ k => slots k
  | Load_completed k => slots (k false)
  | Load_error k => slots (k false)
  | Load_count_lt _ k => slots (k false)
  | Exchange_completed k => slots (k false)
  | Call_scan_data_next k => slots k
  end.

(** The shape that the code of a thread keeps.  [extra] is 1 for the
    caller of [scan_data_next], which holds no slot of the count, and 0 for
    a callback, which holds the slot of its request until its last step.
    The slots do not depend on what the loads return; the code is bound to
    a request only when it has read the count as less than
    [max_batch_count], or from its start. *)
Fixpoint sound (context : scan_data_context) (extra : Z) (p : prog) : Prop :=
  0 <= slots p /\ commit p <= slots p + extra /\
  match p with
  | Done => True
  | Do _ k => sound context extra k
  | Load_completed k =>
      forall b, slots (k b) = slots p /\ commit (k b) = 0 /\ sound context extra (k b)
  | Load_error k =>
      forall b, slots (k b) = slots p /\ commit (k b) = 0 /\ sound context extra (k b)
  | Exchange_completed k =>
      forall b, slots (k b) = slots p /\ commit (k b) = 0 /\ sound context extra (k b)
  | Load_count_lt bound k =>
      bound = max_batch_count context /\ 1 <= slots p + extra /\
      commit (k false) = 0 /\ commit (k true) <= 1 /\
      forall b, slots (k b) = slots p /\ sound context extra (k b)
  | Call_scan_data_next k =>
      commit k = 0 /\ 1 <= slots k + extra /\ sound context extra k
  end.

Definition sum_over (f : thread -> Z) (ts : list thread) : Z :=
  foldr (fun t acc => f t + acc) 0 ts.

(** The budget of a split: the request count is the number of the pending
    requests plus the slots that the threads hold, and the pending requests
    plus the requests that the threads are bound to issue are at most
    [max_batch_count]. *)
Definition within_budget (context : scan_data_context) (s : state) : Prop :=
  exists main callbacks,
    threads s = main :: callbacks /\
    sound context 1 (code main) /\
    Forall (fun t => sound context 0 (code t)) callbacks /\
    split_request_count (mem s) =
      Z.of_nat (length (pending s)) + slots (code main)
      + sum_over (fun t => slots (code t)) callbacks /\
    Z.of_nat (length (pending s)) + commit (code main)
      + sum_over (fun t => commit (code t)) callbacks
    <= Z.max 0 (max_batch_count context).

(** *** Sample runs *)

(** A copy job with a budget of one request. *)
Definition sample_copy : scan_data_context :=
  {| op := SCAN_COPY; split_id := 0; max_batch_count := 1; timeout_ms := 5000;
     stat_size := false; top_count := 0 |}.

(** The caller issues one fetch; the fetch delivers a row; its callback
    takes its first step. *)
Definition sample_overrun : list label :=
  [Run 0; Run 0; Run 0; Run 0; Run 0; Run 0;
   Deliver 0 (Next_reply PERR_OK "h" "s" "v"); Run 1]%nat.

(** A copy job on split 4 with a budget of two requests. *)
Definition sample_copy_2 : scan_data_context :=
  {| op := SCAN_COPY; split_id := 4; max_batch_count := 2; timeout_ms := 5000;
     stat_size := false; top_count := 0 |}.

(** The caller issues one fetch. *)
Definition sample_fetch : list label :=
  [Run 0; Run 0; Run 0; Run 0; Run 0; Run 0]%nat.

(** The caller issues two fetches; both fail, and their callbacks run
    interleaved. *)
Definition sample_two_failures : list label :=
  (sample_fetch ++ sample_fetch ++
   [Deliver 0 (Next_reply (PERR_FAILED 5) "" "" "");
    Deliver 0 (Next_reply (PERR_FAILED 6) "" "" "");
    Run 1; Run 2; Run 2; Run 1; Run 1; Run 1])%nat.

(** The caller issues two fetches; the first delivers a row, whose set is
    issued; the second ends with the end of the data.  No request has
    failed. *)
Definition sample_end_of_data : list label :=
  (sample_fetch ++ sample_fetch ++
   [Deliver 0 (Next_reply PERR_OK "h" "s" "v"); Run 1; Run 1; Run 1;
    Deliver 0 (Next_reply PERR_SCAN_COMPLETE "" "" ""); Run 2; Run 2])%nat.

(** Then the set fails, and its callback runs to its end. *)
Definition sample_late_failure : list label :=
  [Deliver 0 (Op_reply (PERR_FAILED 3)); Run 3; Run 3]%nat.

(** The caller issues one fetch; it delivers a row; the callback issues the
    set of the row. *)
Definition sample_set_issued : list label :=
  (sample_fetch ++ [Deliver 0 (Next_reply PERR_OK "h" "s" "v"); Run 1; Run 1])%nat.

End scan.

(* --------------------------------------------------------------------- *)
(** ** [node_desc], [fill_nodes] and [call_remote_command] *)

Module remote.

(** [dsn::error_code], as far as the shell tells the codes apart: it
    compares a code with [ERR_OK] and prints the name of any other. *)
Inductive error_code := ERR_OK | ERR_TIMEOUT | ERR_OTHER (name : string).

Definition is_ok (e : error_code) : bool :=
  match e with ERR_OK => true | _ => false end.

(** [err.to_string()]. *)
Definition to_string (e : error_code) : string :=
  match e with
  | ERR_OK => "ERR_OK"
  | ERR_TIMEOUT => "ERR_TIMEOUT"
  | ERR_OTHER name => name
  end.

(** [dsn::rpc_address] holds its host and port in one 64-bit word. *)
Definition rpc_address := Z.

Record node_desc := { desc : string; address : rpc_address }.

(** [dsn::command]. *)
Record command := { cmd : string; arguments : list string }.

(** One call of [cli.call(cmd, callback, timeout, 0, 0, 0, server)]. *)
Record rpc := {
  rpc_command : command;
  rpc_timeout_ms : Z;
  rpc_server : rpc_address
}.

(** What the callback of a call is given: the error code and, in the
    response message, the reply text. *)
Record reply := { reply_err : error_code; reply_text : string }.

(** The call that [call_remote_command] makes for a node. *)
Definition call_of (cmd : command) (node : node_desc) : rpc :=
  {| rpc_command := cmd; rpc_timeout_ms := 5000; rpc_server := address node |}.

(** The callback: what it stores in [results[i]]. *)
Definition result_of (y : reply) : bool * string :=
  if is_ok (reply_err y) then (true, reply_text y)
  else (false, to_string (reply_err y)).

(** Where the calling thread stands in [call_remote_command]. *)
Inductive position :=
| Calling (i : nat)     (* in the first loop, about to make call i *)
| Waiting (i : nat)     (* in the second loop, about to wait for task i *)
| Returned.

(** [calls]: the calls made so far ([tasks[i]] is the task of the i-th);
    [replies]: for each task, the reply its callback has run with, if it
    has run. *)
Record state := {
  at_ : position;
  results : list (bool * string);
  calls : list rpc;
  replies : list (option reply)
}.

(** The start: [tasks.resize(n); results.resize(n)] on the vector of the
    caller. *)
Definition init (nodes : list node_desc) (results0 : list (bool * string)) : state :=
  {| at_ := Calling 0;
     results := resize (length nodes) (false, EmptyString) results0;
     calls := [];
     replies := replicate (length nodes) None |}.

Inductive label :=
| Caller                          (* the calling thread takes its next step *)
| Completes (i : nat) (y : reply) (* call i completes; its callback runs *).

Definition exec (nodes : list node_desc) (cmd : command) (l : label) (s : state)
  : option state :=
  match l with
  | Caller =>
      match at_ s with
      | Calling i =>
          match nodes !! i with
          | Some node =>
              Some {| at_ := Calling (S i); results := results s;
                      calls := calls s ++ [call_of cmd node]; replies := replies s |}
          | None =>
              Some {| at_ := Waiting 0; results := results s;
                      calls := calls s; replies := replies s |}
          end
      | Waiting i =>
          match replies s !! i with
          | Some (Some _) =>      (* tasks[i]->wait() returns *)
              Some {| at_ := Waiting (S i); results := results s;
                      calls := calls s; replies := replies s |}
          | Some None => None     (* tasks[i]->wait() blocks *)
          | None =>
              Some {| at_ := Returned; results := results s;
                      calls := calls s; replies := replies s |}
          end
      | Returned => None
      end
  | Completes i y =>
      match calls s !! i, replies s !! i with
      | Some _, Some None =>
          Some {| at_ := at_ s;
                  results := <[i := result_of y]> (results s);
                  calls := calls s;
                  replies := <[i := Some y]> (replies s) |}
      | _, _ => None
      end
  end.

Fixpoint run (nodes : list node_desc) (cmd : command) (ls : list label) (s : state)
  : option state :=
  match ls with
  | [] => Some s
  | l :: ls' =>
      match exec nodes cmd l s with
      | Some s' => run nodes cmd ls' s'
      | None => None
      end
  end.

Definition reachable (nodes : list node_desc) (cmd : command)
    (results0 : list (bool * string)) (s : state) : Prop :=
  exists ls, run nodes cmd ls (init nodes results0) = Some s.

(** [call_remote_command] as a function of what the servers answer: the
    results it returns with (see [returned_results]). *)
Definition call_remote_command (answer : rpc -> reply)
    (nodes : list node_desc) (cmd : command) : list (bool * string) :=
  map (fun node => result_of (answer (call_of cmd node))) nodes.

(** The invariant of a run: the calls made are those of the first nodes,
    the caller has passed only finished tasks, and each result is that of
    the reply its task completed with. *)
Definition consistent (nodes : list node_desc) (cmd : command) (s : state) : Prop :=
  length (results s) = length nodes /\
  length (replies s) = length nodes /\
  calls s = map (call_of cmd) (take (length (calls s)) nodes) /\
  match at_ s with
  | Calling i => length (calls s) = i /\ (i <= length nodes)%nat
  | Waiting i =>
      length (calls s) = length nodes /\
      forall j, (j < i)%nat -> exists y, replies s !! j = Some (Some y)
  | Returned =>
      length (calls s) = length nodes /\
      forall j, (j < length nodes)%nat -> exists y, replies s !! j = Some (Some y)
  end /\
  (forall j y, replies s !! j = Some (Some y) -> results s !! j = Some (result_of y)).

(** Five nodes; the fourth call (node 3) times out. *)
Definition sample_nodes : list node_desc :=
  map (fun a => {| desc := "replica-server"; address := a |}) [100; 101; 102; 103; 104].

Definition sample_command : command :=
  {| cmd := "perf-counters"; arguments := [".*"%string] |}.

Definition sample_run : list label :=
  [Caller; Caller; Caller; Caller; Caller; Caller;
   Completes 4 {| reply_err := ERR_OK; reply_text := "e" |};
   Completes 3 {| reply_err := ERR_TIMEOUT; reply_text := "" |};
   Completes 0 {| reply_err := ERR_OK; reply_text := "a" |};
   Completes 2 {| reply_err := ERR_OK; reply_text := "c" |};
   Completes 1 {| reply_err := ERR_OK; reply_text := "b" |};
   Caller; Caller; Caller; Caller; Caller; Caller]%nat.

End remote.

(* --------------------------------------------------------------------- *)
(** ** The collaborators' types ([namespace dsn]) *)

Module dsn.

(** [dsn::app_info]: the fields that the shell reads. *)
Record app_info := {
  app_id : Z;               (* int32_t *)
  app_name : string;
  partition_count : Z       (* int32_t *)
}.

(** [dsn::partition_configuration]: the field that the shell reads. *)
Record partition_configuration := { primary : remote.rpc_address }.

(** [dsn::perf_counter_metric]. *)
Record perf_counter_metric := { name : string; value : float }.

(** [dsn::perf_counter_info]. *)
Record perf_counter_info := { result : string; counters : list perf_counter_metric }.

End dsn.

(* --------------------------------------------------------------------- *)
(** ** [row_data], [update_app_pegasus_perf_counter] and [get_app_stat] *)

Module stat.
Import remote.

Record row_data := {
  row_name : string;
  get_qps : float;
  multi_get_qps : float;
  put_qps : float;
  multi_put_qps : float;
  remove_qps : float;
  multi_remove_qps : float;
  incr_qps : float;
  check_and_set_qps : float;
  check_and_mutate_qps : float;
  scan_qps : float;
  recent_expire_count : float;
  recent_filter_count : float;
  recent_abnormal_count : float;
  storage_mb : float;
  storage_count : float;
  rdb_block_cache_hit_count : float;
  rdb_block_cache_total_count : float;
  rdb_block_cache_mem_usage : float;
  rdb_index_and_filter_blocks_mem_usage : float;
  rdb_memtable_mem_usage : float
}.

(** The value-initialised [row_data]: an empty name, every counter 0. *)
Definition empty_row : row_data :=
  {| row_name := EmptyString;
     get_qps := 0%float;
     multi_get_qps := 0%float;
     put_qps := 0%float;
     multi_put_qps := 0%float;
     remove_qps := 0%float;
     multi_remove_qps := 0%float;
     incr_qps := 0%float;
     check_and_set_qps := 0%float;
     check_and_mutate_qps := 0%float;
     scan_qps := 0%float;
     recent_expire_count := 0%float;
     recent_filter_count := 0%float;
     recent_abnormal_count := 0%float;
     storage_mb := 0%float;
     storage_count := 0%float;
     rdb_block_cache_hit_count := 0%float;
     rdb_block_cache_total_count := 0%float;
     rdb_block_cache_mem_usage := 0%float;
     rdb_index_and_filter_blocks_mem_usage := 0%float;
     rdb_memtable_mem_usage := 0%float |}.

(** The counters of a row. *)
Inductive field :=
| F_get_qps
| F_multi_get_qps
| F_put_qps
| F_multi_put_qps
| F_remove_qps
| F_multi_remove_qps
| F_incr_qps
| F_check_and_set_qps
| F_check_and_mutate_qps
| F_scan_qps
| F_recent_expire_count
| F_recent_filter_count
| F_recent_abnormal_count
| F_storage_mb
| F_storage_count
| F_rdb_block_cache_hit_count
| F_rdb_block_cache_total_count
| F_rdb_block_cache_mem_usage
| F_rdb_index_and_filter_blocks_mem_usage
| F_rdb_memtable_mem_usage.

#[global] Instance field_eq_dec : EqDecision field.
Proof. solve_decision. Defined.

Definition get (f : field) (row : row_data) : float :=
  match f with
  | F_get_qps => get_qps row
  | F_multi_get_qps => multi_get_qps row
  | F_put_qps => put_qps row
  | F_multi_put_qps => multi_put_qps row
  | F_remove_qps => remove_qps row
  | F_multi_remove_qps => multi_remove_qps row
  | F_incr_qps => incr_qps row
  | F_check_and_set_qps => check_and_set_qps row
  | F_check_and_mutate_qps => check_and_mutate_qps row
  | F_scan_qps => scan_qps row
  | F_recent_expire_count => recent_expire_count row
  | F_recent_filter_count => recent_filter_count row
  | F_recent_abnormal_count => recent_abnormal_count row
  | F_storage_mb => storage_mb row
  | F_storage_count => storage_count row
  | F_rdb_block_cache_hit_count => rdb_block_cache_hit_count row
  | F_rdb_block_cache_total_count => rdb_block_cache_total_count row
  | F_rdb_block_cache_mem_usage => rdb_block_cache_mem_usage row
  | F_rdb_index_and_filter_blocks_mem_usage => rdb_index_and_filter_blocks_mem_usage row
  | F_rdb_memtable_mem_usage => rdb_memtable_mem_usage row
  end.

(** [row.f += value]. *)
Definition add_to (f : field) (value : float) (row : row_data) : row_data :=
  let upd g := if decide (g = f) then (get g row + value)%float else get g row in
  {| row_name := row_name row;
     get_qps := upd F_get_qps;
     multi_get_qps := upd F_multi_get_qps;
     put_qps := upd F_put_qps;
     multi_put_qps := upd F_multi_put_qps;
     remove_qps := upd F_remove_qps;
     multi_remove_qps := upd F_multi_remove_qps;
     incr_qps := upd F_incr_qps;
     check_and_set_qps := upd F_check_and_set_qps;
     check_and_mutate_qps := upd F_check_and_mutate_qps;
     scan_qps := upd F_scan_qps;
     recent_expire_count := upd F_recent_expire_count;
     recent_filter_count := upd F_recent_filter_count;
     recent_abnormal_count := upd F_recent_abnormal_count;
     storage_mb := upd F_storage_mb;
     storage_count := upd F_storage_count;
     rdb_block_cache_hit_count := upd F_rdb_block_cache_hit_count;
     rdb_block_cache_total_count := upd F_rdb_block_cache_total_count;
     rdb_block_cache_mem_usage := upd F_rdb_block_cache_mem_usage;
     rdb_index_and_filter_blocks_mem_usage := upd F_rdb_index_and_filter_blocks_mem_usage;
     rdb_memtable_mem_usage := upd F_rdb_memtable_mem_usage |}.

(** [row.row_name = s]. *)
Definition set_row_name (s : string) (row : row_data) : row_data :=
  {| row_name := s;
     get_qps := get_qps row;
     multi_get_qps := multi_get_qps row;
     put_qps := put_qps row;
     multi_put_qps := multi_put_qps row;
     remove_qps := remove_qps row;
     multi_remove_qps := multi_remove_qps row;
     incr_qps := incr_qps row;
     check_and_set_qps := check_and_set_qps row;
     check_and_mutate_qps := check_and_mutate_qps row;
     scan_qps := scan_qps row;
     recent_expire_count := recent_expire_count row;
     recent_filter_count := recent_filter_count row;
     recent_abnormal_count := recent_abnormal_count row;
     storage_mb := storage_mb row;
     storage_count := storage_count row;
     rdb_block_cache_hit_count := rdb_block_cache_hit_count row;
     rdb_block_cache_total_count := rdb_block_cache_total_count row;
     rdb_block_cache_mem_usage := rdb_block_cache_mem_usage row;
     rdb_index_and_filter_blocks_mem_usage := rdb_index_and_filter_blocks_mem_usage row;
     rdb_memtable_mem_usage := rdb_memtable_mem_usage row |}.

(** [update_app_pegasus_perf_counter]: the value returned and the row. *)
Definition update_app_pegasus_perf_counter
    (row : row_data) (counter_name : string) (value : float) : bool * row_data :=
  if String.eqb counter_name "get_qps" then (true, add_to F_get_qps value row)
  else if String.eqb counter_name "multi_get_qps" then (true, add_to F_multi_get_qps value row)
  else if String.eqb counter_name "put_qps" then (true, add_to F_put_qps value row)
  else if String.eqb counter_name "multi_put_qps" then (true, add_to F_multi_put_qps value row)
  else if String.eqb counter_name "remove_qps" then (true, add_to F_remove_qps value row)
  else if String.eqb counter_name "multi_remove_qps" then (true, add_to F_multi_remove_qps value row)
  else if String.eqb counter_name "incr_qps" then (true, add_to F_incr_qps value row)
  else if String.eqb counter_name "check_and_set_qps" then (true, add_to F_check_and_set_qps value row)
  else if String.eqb counter_name "check_and_mutate_qps" then (true, add_to F_check_and_mutate_qps value row)
  else if String.eqb counter_name "scan_qps" then (true, add_to F_scan_qps value row)
  else if String.eqb counter_name "recent.expire.count" then (true, add_to F_recent_expire_count value row)
  else if String.eqb counter_name "recent.filter.count" then (true, add_to F_recent_filter_count value row)
  else if String.eqb counter_name "recent.abnormal.count" then (true, add_to F_recent_abnormal_count value row)
  else if String.eqb counter_name "disk.storage.sst(MB)" then (true, add_to F_storage_mb value row)
  else if String.eqb counter_name "disk.storage.sst.count" then (true, add_to F_storage_count value row)
  else if String.eqb counter_name "rdb.block_cache.hit_count" then (true, add_to F_rdb_block_cache_hit_count value row)
  else if String.eqb counter_name "rdb.block_cache.total_count" then (true, add_to F_rdb_block_cache_total_count value row)
  else if String.eqb counter_name "rdb.block_cache.memory_usage" then (true, add_to F_rdb_block_cache_mem_usage value row)
  else if String.eqb counter_name "rdb.index_and_filter_blocks.memory_usage" then (true, add_to F_rdb_index_and_filter_blocks_mem_usage value row)
  else if String.eqb counter_name "rdb.memtable.memory_usage" then (true, add_to F_rdb_memtable_mem_usage value row)
  else (false, row).

(** The counter that a metric name stands for, if it is one of the twenty
    names that [update_app_pegasus_perf_counter] knows. *)
Definition field_of_name (counter_name : string) : option field :=
  if String.eqb counter_name "get_qps" then Some F_get_qps
  else if String.eqb counter_name "multi_get_qps" then Some F_multi_get_qps
  else if String.eqb counter_name "put_qps" then Some F_put_qps
  else if String.eqb counter_name "multi_put_qps" then Some F_multi_put_qps
  else if String.eqb counter_name "remove_qps" then Some F_remove_qps
  else if String.eqb counter_name "multi_remove_qps" then Some F_multi_remove_qps
  else if String.eqb counter_name "incr_qps" then Some F_incr_qps
  else if String.eqb counter_name "check_and_set_qps" then Some F_check_and_set_qps
  else if String.eqb counter_name "check_and_mutate_qps" then Some F_check_and_mutate_qps
  else if String.eqb counter_name "scan_qps" then Some F_scan_qps
  else if String.eqb counter_name "recent.expire.count" then Some F_recent_expire_count
  else if String.eqb counter_name "recent.filter.count" then Some F_recent_filter_count
  else if String.eqb counter_name "recent.abnormal.count" then Some F_recent_abnormal_count
  else if String.eqb counter_name "disk.storage.sst(MB)" then Some F_storage_mb
  else if String.eqb counter_name "disk.storage.sst.count" then Some F_storage_count
  else if String.eqb counter_name "rdb.block_cache.hit_count" then Some F_rdb_block_cache_hit_count
  else if String.eqb counter_name "rdb.block_cache.total_count" then Some F_rdb_block_cache_total_count
  else if String.eqb counter_name "rdb.block_cache.memory_usage" then Some F_rdb_block_cache_mem_usage
  else if String.eqb counter_name "rdb.index_and_filter_blocks.memory_usage" then Some F_rdb_index_and_filter_blocks_mem_usage
  else if String.eqb counter_name "rdb.memtable.memory_usage" then Some F_rdb_memtable_mem_usage
  else None.

(** [shell_context] and the collaborators behind it, each with what it
    answers during one call of [get_app_stat]. *)
Record shell_context := {
  meta_list : list rpc_address;
  (* ddl_client->list_nodes(NS_ALIVE, rs_nodes): the error code and the keys
     of the map, in order *)
  list_nodes : error_code * list rpc_address;
  (* ddl_client->list_apps(AS_AVAILABLE, apps) *)
  list_apps : error_code * list dsn.app_info;
  (* ddl_client->list_app(name, app_id, partition_count, partitions) *)
  list_app : string -> error_code * Z * Z * list dsn.partition_configuration;
  (* what the server of a call answers *)
  answer : rpc -> reply;
  (* dsn::json::json_forwarder<dsn::perf_counter_info>::decode *)
  json_decode : string -> option dsn.perf_counter_info
}.

(** [fill_nodes]: the value returned and the vector of nodes. *)
Definition fill_nodes (sc : shell_context) (type : string) (nodes : list node_desc)
  : bool * list node_desc :=
  let nodes :=
    if String.eqb type "all" || String.eqb type "meta-server" then
      nodes ++ map (fun addr => {| desc := "meta-server"; address := addr |}) (meta_list sc)
    else nodes in
  if String.eqb type "all" || String.eqb type "replica-server" then
    let '(err, rs_nodes) := list_nodes sc in
    if negb (is_ok err) then (false, nodes)
    else
      (true,
       nodes ++ map (fun addr => {| desc := "replica-server"; address := addr |}) rs_nodes)
  else (true, nodes).

(** The lines that [derror] logs before [get_app_stat] returns early. *)
Inductive derror :=
| List_apps_failed
| App_not_found (app_name : string)
| Get_nodes_failed
| List_app_failed (app_name : string)
| Query_failed (node : rpc_address)
| Decode_failed (node : rpc_address)
| Query_error (node : rpc_address) (result : string).

(** How a part of [get_app_stat] ends. *)
Inductive outcome (A : Type) :=
| Proceed (a : A)                    (* control goes on, with this state *)
| Returned_early (e : derror) (a : A) (* derror(...); return true; *)
| Asserted                           (* a dassert has failed *)
| Out_of_range                       (* operator[] past the end of a vector *)
| Length_error.                      (* resize to more than max_size() *)

Arguments Proceed {A} a.
Arguments Returned_early {A} e a.
Arguments Asserted {A}.
Arguments Out_of_range {A}.
Arguments Length_error {A}.

(** [v[i]] for an [int] index [i]: the index is converted to [size_t], so
    a negative one is past the end. *)
Definition at_index {A : Type} (v : list A) (i : Z) : option A :=
  if i <? 0 then None else v !! Z.to_nat i.

(** [sprintf("%d", n)] and [boost::lexical_cast<std::string>(n)]. *)
Definition string_of_int (n : Z) : string := NilZero.string_of_int (Z.to_int n).

(** The body of the loop over the counters of a node when no application
    was named (lines 522-535). *)
Definition add_counter_of_app
    (app_partitions : gmap Z (list dsn.partition_configuration))
    (app_row_idx : gmap Z Z)
    (node_addr : rpc_address)
    (rows : list row_data) (m : dsn.perf_counter_metric) : outcome (list row_data) :=
  match parse_app_pegasus_perf_counter_name (dsn.name m) with
  | None => Asserted
  | Some (app_id_x, partition_index_x, counter_name) =>
      match app_partitions !! app_id_x with
      | None => Proceed rows
      | Some partitions =>
          match at_index partitions partition_index_x with
          | None => Out_of_range
          | Some pc =>
              if negb (dsn.primary pc =? node_addr) then Proceed rows
              else
                let idx := default 0 (app_row_idx !! app_id_x) in
                match at_index rows idx with
                | None => Out_of_range
                | Some row =>
                    Proceed
                      (<[Z.to_nat idx :=
                           (update_app_pegasus_perf_counter row counter_name (dsn.value m)).2]>
                         rows)
                end
          end
      end
  end.

(** The body of the loop over the counters of a node when an application
    was named (lines 576-587). *)
Definition add_counter_of_partition
    (app_id partition_count : Z)
    (partitions : list dsn.partition_configuration)
    (node_addr : rpc_address)
    (rows : list row_data) (m : dsn.perf_counter_metric) : outcome (list row_data) :=
  match parse_app_pegasus_perf_counter_name (dsn.name m) with
  | None => Asserted
  | Some (app_id_x, partition_index_x, counter_name) =>
      if negb (app_id_x =? app_id) then Asserted
      else if negb (partition_index_x <? partition_count) then Asserted
      else
        match at_index partitions partition_index_x with
        | None => Out_of_range
        | Some pc =>
            if negb (dsn.primary pc =? node_addr) then Proceed rows
            else
              match at_index rows partition_index_x with
              | None => Out_of_range
              | Some row =>
                  Proceed
                    (<[Z.to_nat partition_index_x :=
                         (update_app_pegasus_perf_counter row counter_name (dsn.value m)).2]>
                       rows)
              end
        end
  end.

(** [for (dsn::perf_counter_metric &m : info.counters) body]. *)
Fixpoint for_each_counter
    (body : list row_data -> dsn.perf_counter_metric -> outcome (list row_data))
    (counters : list dsn.perf_counter_metric) (rows : list row_data)
  : outcome (list row_data) :=
  match counters with
  | [] => Proceed rows
  | m :: counters' =>
      match body rows m with
      | Proceed rows' => for_each_counter body counters' rows'
      | o => o
      end
  end.

(** One turn of the loop over the nodes. *)
Definition add_counters_of_node (sc : shell_context)
    (body : rpc_address -> list row_data -> dsn.perf_counter_metric -> outcome (list row_data))
    (node : node_desc) (res : bool * string) (rows : list row_data)
  : outcome (list row_data) :=
  let node_addr := address node in
  if negb res.1 then Returned_early (Query_failed node_addr) rows
  else
    match json_decode sc res.2 with
    | None => Returned_early (Decode_failed node_addr) rows
    | Some info =>
        if negb (String.eqb (dsn.result info) "OK") then
          Returned_early (Query_error node_addr (dsn.result info)) rows
        else for_each_counter (body node_addr) (dsn.counters info) rows
    end.

(** [for (int i = 0; i < nodes.size(); ++i)], reading [nodes[i]] and
    [results[i]]. *)
Fixpoint for_each_node (sc : shell_context)
    (body : rpc_address -> list row_data -> dsn.perf_counter_metric -> outcome (list row_data))
    (nodes : list node_desc) (results : list (bool * string)) (rows : list row_data)
  : outcome (list row_data) :=
  match nodes with
  | [] => Proceed rows
  | node :: nodes' =>
      match results with
      | [] => Out_of_range
      | res :: results' =>
          match add_counters_of_node sc body node res rows with
          | Proceed rows' => for_each_node sc body nodes' results' rows'
          | o => o
          end
      end
  end.

(** The first loop over the applications (lines 477-491): [list_app] fills
    [app_partitions[app.app_id]]. *)
Fixpoint list_partitions (sc : shell_context) (app_name : string)
    (apps : list dsn.app_info) (app_partitions : gmap Z (list dsn.partition_configuration))
  : outcome (gmap Z (list dsn.partition_configuration)) :=
  match apps with
  | [] => Proceed app_partitions
  | app :: apps' =>
      let '(err, app_id, partition_count, partitions) := list_app sc (dsn.app_name app) in
      let app_partitions := <[dsn.app_id app := partitions]> app_partitions in
      if negb (is_ok err) then Returned_early (List_app_failed app_name) app_partitions
      else if negb (app_id =? dsn.app_id app) then Asserted
      else if negb (partition_count =? dsn.partition_count app) then Asserted
      else list_partitions sc app_name apps' app_partitions
  end.

(** The second loop over the applications (lines 494-500): the rows get
    their names and [app_row_idx] its entries. *)
Fixpoint name_rows (apps : list dsn.app_info) (idx : Z)
    (rows : list row_data) (app_row_idx : gmap Z Z)
  : outcome (list row_data * gmap Z Z) :=
  match apps with
  | [] => Proceed (rows, app_row_idx)
  | app :: apps' =>
      match at_index rows idx with
      | None => Out_of_range
      | Some row =>
          name_rows apps' (idx + 1)
            (<[Z.to_nat idx := set_row_name (dsn.app_name app) row]> rows)
            (<[dsn.app_id app := idx]> app_row_idx)
      end
  end.

(** The command sent to the nodes. *)
Definition perf_counters_command (app_info : option dsn.app_info) : command :=
  {| cmd := "perf-counters";
     arguments :=
       [match app_info with
        | None => ".*\*app\.pegasus\*.*@.*"
        | Some info => ".*\*app\.pegasus\*.*@" +:+ string_of_int (dsn.app_id info) +:+ "\..*"
        end]%string |}.

(** The branch of [get_app_stat] for an empty [app_name] (lines 475-536). *)
Definition stat_of_all_apps (sc : shell_context) (app_name : string)
    (apps : list dsn.app_info) (nodes : list node_desc) (results : list (bool * string))
    (rows : list row_data) : outcome (list row_data) :=
  match list_partitions sc app_name apps ∅ with
  | Proceed app_partitions =>
      let rows := resize (size app_partitions) empty_row rows in
      match name_rows apps 0 rows ∅ with
      | Proceed (rows, app_row_idx) =>
          for_each_node sc (add_counter_of_app app_partitions app_row_idx) nodes results rows
      | Returned_early e (rows, _) => Returned_early e rows
      | Asserted => Asserted
      | Out_of_range => Out_of_range
      | Length_error => Length_error
      end
  | Returned_early e _ => Returned_early e rows
  | Asserted => Asserted
  | Out_of_range => Out_of_range
  | Length_error => Length_error
  end.

(** The branch of [get_app_stat] for a named application (lines 538-588). *)
Definition stat_of_one_app (sc : shell_context) (app_name : string)
    (app_info : dsn.app_info) (nodes : list node_desc) (results : list (bool * string))
    (rows : list row_data) : outcome (list row_data) :=
  if dsn.partition_count app_info <? 0 then Length_error
  else
    let rows := resize (Z.to_nat (dsn.partition_count app_info)) empty_row rows in
    let rows := imap (fun i row => set_row_name (string_of_int (Z.of_nat i)) row) rows in
    let '(err, app_id, partition_count, partitions) := list_app sc app_name in
    if negb (is_ok err) then Returned_early (List_app_failed app_name) rows
    else if negb (app_id =? dsn.app_id app_info) then Asserted
    else if negb (partition_count =? dsn.partition_count app_info) then Asserted
    else
      for_each_node sc (add_counter_of_partition app_id partition_count partitions)
        nodes results rows.

(** [get_app_stat].  Whenever it returns, it returns [true]: the outcome
    tells the final [return true] ([Proceed]) from the early ones. *)
Definition get_app_stat (sc : shell_context) (app_name : string) (rows : list row_data)
  : outcome (list row_data) :=
  let '(err, apps) := list_apps sc in
  if negb (is_ok err) then Returned_early List_apps_failed rows
  else
    let found :=
      if String.eqb app_name "" then Some None
      else
        match find (fun app => String.eqb (dsn.app_name app) app_name) apps with
        | Some app => Some (Some app)
        | None => None
        end in
    match found with
    | None => Returned_early (App_not_found app_name) rows
    | Some app_info =>
        let '(ok, nodes) := fill_nodes sc "replica-server" [] in
        if negb ok then Returned_early Get_nodes_failed rows
        else
          let results :=
            call_remote_command (answer sc) nodes (perf_counters_command app_info) in
          match app_info with
          | None => stat_of_all_apps sc app_name apps nodes results rows
          | Some info => stat_of_one_app sc app_name info nodes results rows
          end
    end.

(** The value that [get_app_stat] returns, when it returns. *)
Definition returned_value (o : outcome (list row_data)) : option bool :=
  match o with
  | Proceed _ => Some true
  | Returned_early _ _ => Some true
  | _ => None
  end.

(** *** Vocabulary of the properties *)

(** A counter as a node has reported it. *)
Definition report := (rpc_address * dsn.perf_counter_metric)%type.

Definition reports_of_node (sc : shell_context) (node : node_desc) (res : bool * string)
  : list report :=
  match json_decode sc res.2 with
  | Some info => map (fun m => (address node, m)) (dsn.counters info)
  | None => []
  end.

(** The values of the selected reports, added in order to [start]. *)
Definition sum_of (select : report -> bool) (rs : list report) (start : float) : float :=
  fold_left (fun acc r => if select r then (acc + dsn.value r.2)%float else acc) rs start.

(** The node recorded as the primary of partition [p] in a list of
    partition configurations. *)
Definition owner (partitions : list dsn.partition_configuration) (p : Z)
  : option rpc_address :=
  option_map dsn.primary (at_index partitions p).

(** The partition configurations that [list_app] gives for the application
    with the identifier [a]. *)
Definition partitions_of (sc : shell_context) (apps : list dsn.app_info) (a : Z)
  : option (list dsn.partition_configuration) :=
  match find (fun app => dsn.app_id app =? a) apps with
  | Some app => Some (list_app sc (dsn.app_name app)).2
  | None => None
  end.

(** A report counts for the counter [f] of the row of the application
    [app]: its name parses, names that application and a metric that stands
    for [f], and the node that reported it is the recorded primary of its
    partition. *)
Definition counts_for_app (sc : shell_context) (apps : list dsn.app_info)
    (app : dsn.app_info) (f : field) (r : report) : bool :=
  match parse_app_pegasus_perf_counter_name (dsn.name r.2) with
  | Some (a, p, counter_name) =>
      (a =? dsn.app_id app)
      && match partitions_of sc apps a with
         | Some partitions => bool_decide (owner partitions p = Some r.1)
         | None => false
         end
      && bool_decide (field_of_name counter_name = Some f)
  | None => false
  end.

(** A report counts for the counter [f] of the row of the partition [j]. *)
Definition counts_for_partition (partitions : list dsn.partition_configuration)
    (j : Z) (f : field) (r : report) : bool :=
  match parse_app_pegasus_perf_counter_name (dsn.name r.2) with
  | Some (_, p, counter_name) =>
      (p =? j)
      && bool_decide (owner partitions p = Some r.1)
      && bool_decide (field_of_name counter_name = Some f)
  | None => false
  end.

(** What [rows[i]] holds when the aggregation starts: the row of the
    caller's vector if it has one there, a fresh row otherwise. *)
Definition start_row (rows0 : list row_data) (i : nat) : row_data :=
  default empty_row (rows0 !! i).

(** [rows'] is [rows] after the counter [m] of the node [n] has been added
    where [select] says: the names and the number of the rows are as
    before. *)
Definition added (select : nat -> field -> report -> bool) (r : report)
    (rows rows' : list row_data) : Prop :=
  length rows' = length rows /\
  forall i row, rows !! i = Some row ->
    exists row', rows' !! i = Some row' /\
      row_name row' = row_name row /\
      forall f, get f row' =
                if select i f r then (get f row + dsn.value r.2)%float else get f row.

(** [rows'] is [rows] after the reports [rs] have been added, in order. *)
Definition accumulated (select : nat -> field -> report -> bool) (rs : list report)
    (rows rows' : list row_data) : Prop :=
  length rows' = length rows /\
  forall i row, rows !! i = Some row ->
    exists row', rows' !! i = Some row' /\
      row_name row' = row_name row /\
      forall f, get f row' = sum_of (select i f) rs (get f row).

(** The selection that [add_counter_of_app] makes. *)
Definition selected_of_app
    (app_partitions : gmap Z (list dsn.partition_configuration))
    (app_row_idx : gmap Z Z) (i : nat) (f : field) (r : report) : bool :=
  match parse_app_pegasus_perf_counter_name (dsn.name r.2) with
  | Some (a, p, counter_name) =>
      match app_partitions !! a with
      | Some partitions =>
          bool_decide (owner partitions p = Some r.1)
          && bool_decide (default 0 (app_row_idx !! a) = Z.of_nat i)
          && bool_decide (field_of_name counter_name = Some f)
      | None => false
      end
  | None => false
  end.

(** Why the loop over the nodes returns early at a node, if it does: the
    three tests that [get_app_stat] makes on the result of a node before
    it reads its counters (lines 504-521 and 558-575). *)
Definition node_failure (sc : shell_context) (node : node_desc) (res : bool * string)
  : option derror :=
  if negb res.1 then Some (Query_failed (address node))
  else
    match json_decode sc res.2 with
    | None => Some (Decode_failed (address node))
    | Some info =>
        if negb (String.eqb (dsn.result info) "OK") then
          Some (Query_error (address node) (dsn.result info))
        else None
    end.

(** The failure of the first node whose result fails one of the tests. *)
Fixpoint first_failure (sc : shell_context) (nodes : list node_desc)
    (results : list (bool * string)) : option derror :=
  match nodes, results with
  | node :: nodes', res :: results' =>
      match node_failure sc node res with
      | Some e => Some e
      | None => first_failure sc nodes' results'
      end
  | _, _ => None
  end.

(** The reports that [get_app_stat] reads, in its order: those of the nodes
    before the first one that fails a test, and of all the nodes if none
    does. *)
Fixpoint reports_read (sc : shell_context) (nodes : list node_desc)
    (results : list (bool * string)) : list report :=
  match nodes, results with
  | node :: nodes', res :: results' =>
      match node_failure sc node res with
      | Some _ => []
      | None => reports_of_node sc node res ++ reports_read sc nodes' results'
      end
  | _, _ => []
  end.

(** The early returns of the loop over the nodes. *)
Definition node_failed (e : derror) : Prop :=
  match e with
  | Query_failed _ | Decode_failed _ | Query_error _ _ => True
  | _ => False
  end.

(** The rows when no application was named, the reports [rs] having been
    read: one row for each application, in the order of [apps], named after
    it; each counter is its start value and, added to it in order, the
    values of the reports that count for it. *)
Definition rows_of_apps (sc : shell_context) (apps : list dsn.app_info)
    (rs : list report) (rows0 rows : list row_data) : Prop :=
  length rows = length apps /\
  forall i app, apps !! i = Some app ->
    exists row, rows !! i = Some row /\
      row_name row = dsn.app_name app /\
      forall f, get f row =
        sum_of (counts_for_app sc apps app f) rs (get f (start_row rows0 i)).

(** The rows when the application [info] was named, the reports [rs]
    having been read: one row for each of its partitions, named by the
    index of the partition. *)
Definition rows_of_partitions (sc : shell_context) (app_name : string)
    (info : dsn.app_info) (rs : list report) (rows0 rows : list row_data) : Prop :=
  length rows = Z.to_nat (dsn.partition_count info) /\
  forall j, (j < Z.to_nat (dsn.partition_count info))%nat ->
    exists row, rows !! j = Some row /\
      row_name row = string_of_int (Z.of_nat j) /\
      forall f, get f row =
        sum_of (counts_for_partition (list_app sc app_name).2 (Z.of_nat j) f) rs
               (get f (start_row rows0 j)).

(** The rows of the partitions before any counter is added to them. *)
Definition named_rows (info : dsn.app_info) (rows0 : list row_data) : list row_data :=
  imap (fun i row => set_row_name (string_of_int (Z.of_nat i)) row)
       (resize (Z.to_nat (dsn.partition_count info)) empty_row rows0).

(** [list_app], asked by the name [name], succeeds and gives the
    identifier and the partition count of [app]: the early return and the
    two assertions after the call are passed. *)
Definition lists_well (sc : shell_context) (name : string) (app : dsn.app_info) : Prop :=
  is_ok (list_app sc name).1.1.1 = true /\
  (list_app sc name).1.1.2 = dsn.app_id app /\
  (list_app sc name).1.2 = dsn.partition_count app.

(** With no application named, a report can be added: its name parses,
    and if it names an application of [apps], its partition index is an
    index into the partitions listed for that application. *)
Definition fits_apps (sc : shell_context) (apps : list dsn.app_info) (r : report) : Prop :=
  match parse_app_pegasus_perf_counter_name (dsn.name r.2) with
  | Some (a, p, _) =>
      match partitions_of sc apps a with
      | Some partitions => 0 <= p < Z.of_nat (length partitions)
      | None => True
      end
  | None => False
  end.

(** With the application [info] named, a report can be added: its name
    parses and names that application, and its partition index is an index
    into [partitions] and less than the partition count. *)
Definition fits_partitions (info : dsn.app_info)
    (partitions : list dsn.partition_configuration) (r : report) : Prop :=
  match parse_app_pegasus_perf_counter_name (dsn.name r.2) with
  | Some (a, p, _) =>
      a = dsn.app_id info /\
      0 <= p < dsn.partition_count info /\
      p < Z.of_nat (length partitions)
  | None => False
  end.

(** *** A sample cluster *)

Definition sample_metric (counter_name : string) (v : float) : dsn.perf_counter_metric :=
  {| dsn.name := ("replica*app.pegasus*" +:+ counter_name)%string; dsn.value := v |}.

(** The reply text of a node is its address in decimal; node 100 + i
    reports get_qps = 10 for partition i of application 1, node 101 also a
    stale value for partition 0, node 102 also a counter of an unknown
    name, and node 103 reports [last]. *)
Definition sample_decode (last : list dsn.perf_counter_metric) (text : string)
  : option dsn.perf_counter_info :=
  if String.eqb text "100" then
    Some {| dsn.result := "OK"; dsn.counters := [sample_metric "get_qps@1.0" 10] |}
  else if String.eqb text "101" then
    Some {| dsn.result := "OK";
            dsn.counters := [sample_metric "get_qps@1.1" 10; sample_metric "get_qps@1.0" 7] |}
  else if String.eqb text "102" then
    Some {| dsn.result := "OK";
            dsn.counters := [sample_metric "get_qps@1.2" 10; sample_metric "unknown@1.2" 5] |}
  else if String.eqb text "103" then
    Some {| dsn.result := "OK"; dsn.counters := last |}
  else None.

(** One application, temp, of four partitions; partition i has node
    100 + i as its primary. *)
Definition sample_partitions : list dsn.partition_configuration :=
  map (fun a => {| dsn.primary := a |}) [100; 101; 102; 103].

Definition sample_cluster (last : list dsn.perf_counter_metric) : shell_context :=
  {| meta_list := [1];
     list_nodes := (ERR_OK, [100; 101; 102; 103]);
     list_apps :=
       (ERR_OK, [{| dsn.app_id := 1; dsn.app_name := "temp"; dsn.partition_count := 4 |}]);
     list_app := fun _ => (ERR_OK, 1, 4, sample_partitions);
     answer := fun c => {| reply_err := ERR_OK; reply_text := string_of_int (rpc_server c) |};
     json_decode := sample_decode last |}.

(** Node 103 reports its own partition. *)
Definition sample_last : list dsn.perf_counter_metric := [sample_metric "get_qps@1.3" 10].

(** Node 103 reports a partition index past the partitions of temp. *)
Definition sample_stray : list dsn.perf_counter_metric := [sample_metric "get_qps@1.7" 10].

(** The sample cluster with a node 102 that does not answer in time. *)
Definition sample_cluster_timeout : shell_context :=
  {| meta_list := [1];
     list_nodes := (ERR_OK, [100; 101; 102; 103]);
     list_apps :=
       (ERR_OK, [{| dsn.app_id := 1; dsn.app_name := "temp"; dsn.partition_count := 4 |}]);
     list_app := fun _ => (ERR_OK, 1, 4, sample_partitions);
     answer := fun c =>
       if rpc_server c =? 102 then {| reply_err := ERR_TIMEOUT; reply_text := "" |}
       else {| reply_err := ERR_OK; reply_text := string_of_int (rpc_server c) |};
     json_decode := sample_decode sample_last |}.

End stat.

(** [occurs c s]: the character [c] is one of the characters of [s]. *)
Definition occurs (c : ascii) (s : string) : Prop := In c (list_ascii_of_string s).

(** The text that [sscanf] is given: the C string after the last ['@']. *)
Definition numeric_suffix (name : string) : string :=
  cstr.c_str_from name (cstr.find_last_of "@" name + 1).

(* ===================================================================== *)
(** * Part II. Properties                                                 *)
(* ===================================================================== *)

Example parse_real_counter_name :
  parse_app_pegasus_perf_counter_name "replica*app.pegasus*get_qps@7.3"
  = Some (7, 3, "get_qps"%string).
Proof. vm_compute. reflexivity. Qed.

(** ** The top-K container *)

Section top_container_facts.
Import top_container.

Lemma emplace_length x h : length (emplace x h) = S (length h).
Proof.
  induction h as [|y h IH]; simpl; [reflexivity|].
  destruct (top_heap_compare y x); simpl; [reflexivity|]. now rewrite IH.
Qed.

(** With a capacity of at least one, [push] never reaches [top()] on an
    empty heap, and the heap grows until it holds [_count] items. *)
Lemma push_length c hk sk rs :
  1 <= _count c < 2 ^ 31 ->
  Z.of_nat (length (_heap c)) <= _count c ->
  exists c', push c hk sk rs = Some c' /\ _count c' = _count c /\
    Z.of_nat (length (_heap c')) = Z.min (_count c) (Z.of_nat (length (_heap c)) + 1).
Proof.
  intros HK Hlen. unfold push, to_size_t.
  rewrite (Z.mod_small (_count c)) by lia.
  destruct (Z.ltb_spec (Z.of_nat (length (_heap c))) (_count c)) as [Hlt|Hge].
  - eexists; split; [reflexivity|]. simpl. rewrite emplace_length. lia.
  - destruct (_heap c) as [|tp h] eqn:Hh; simpl in *; [lia|].
    destruct (row_size tp <? rs).
    + eexists; split; [reflexivity|]. simpl. rewrite emplace_length. lia.
    + eexists; split; [reflexivity|]. rewrite Hh. simpl. lia.
Qed.

Lemma push_all_length rows : forall c,
  1 <= _count c < 2 ^ 31 ->
  Z.of_nat (length (_heap c)) <= _count c ->
  exists c', push_all c rows = Some c' /\
    Z.of_nat (length (_heap c')) =
    Z.min (_count c) (Z.of_nat (length (_heap c)) + Z.of_nat (length rows)).
Proof.
  induction rows as [|[[hk sk] rs] rows IH]; intros c HK Hlen; simpl.
  - exists c. split; [reflexivity|]. lia.
  - destruct (push_length c hk sk rs HK Hlen) as (c1 & -> & HK1 & Hl1).
    destruct (IH c1) as (c2 & -> & Hl2); [lia|lia|].
    exists c2. split; [reflexivity|]. lia.
Qed.

(** The part of the top-K contract that the code keeps: after any sequence
    of pushes a container of capacity [K >= 1] holds [min K n] items. *)
Lemma top_container_size K rows :
  1 <= K < 2 ^ 31 ->
  exists c, push_all (new K) rows = Some c /\
    Z.of_nat (length (all c)) = Z.min K (Z.of_nat (length rows)).
Proof.
  intros HK. destruct (push_all_length rows (new K)) as (c & Hc & Hl); simpl; try lia.
  exists c. split; [exact Hc|]. unfold all. simpl in Hl. lia.
Qed.

Lemma emplace_descending x h : descending h -> descending (emplace x h).
Proof.
  induction h as [|y h IH]; simpl; [intros _; split; [constructor | exact I]|].
  intros [Hy Hh]. unfold top_heap_compare.
  destruct (Z.ltb_spec (row_size y) (row_size x)) as [Hlt|Hge]; simpl.
  - split; [|split; assumption]. constructor; [lia|].
    apply (Forall_impl _ _ _ Hy). intros z Hz. simpl in Hz. lia.
  - split; [|now apply IH].
    clear IH Hh. induction h as [|z h IH]; simpl.
    + constructor; [exact Hge | constructor].
    + apply Forall_cons in Hy. destruct Hy as [Hz Hy]. unfold top_heap_compare.
      destruct (row_size z <? row_size x).
      * constructor; [exact Hge|]. constructor; assumption.
      * constructor; [exact Hz | now apply IH].
Qed.

Lemma push_descending c hk sk rs c' :
  descending (_heap c) -> push c hk sk rs = Some c' -> descending (_heap c').
Proof.
  unfold push. intros Hd.
  destruct (Z.of_nat (length (_heap c)) <? to_size_t (_count c)).
  - intros [= <-]. simpl. now apply emplace_descending.
  - destruct (_heap c) as [|tp h] eqn:Eh; simpl; [discriminate|].
    destruct (row_size tp <? rs); intros [= <-]; simpl.
    + apply emplace_descending. now destruct Hd.
    + now rewrite Eh.
Qed.

(** The item that [push] compares the incoming row with, [top()], is a
    largest item of the container: a full container replaces its largest
    item, and only by a row that is larger still. *)
Lemma top_is_largest rows : forall c c' tp,
  descending (_heap c) ->
  push_all c rows = Some c' ->
  top (_heap c') = Some tp ->
  Forall (fun y => row_size y <= row_size tp) (_heap c').
Proof.
  induction rows as [|[[hk sk] rs] rows IH]; intros c c' tp Hd Hp Ht; simpl in Hp.
  - injection Hp as <-. destruct (_heap c) as [|x h]; [discriminate|].
    injection Ht as <-. destruct Hd as [Hx _]. constructor; [lia | exact Hx].
  - destruct (push c hk sk rs) as [c1|] eqn:E1; [|discriminate].
    exact (IH c1 c' tp (push_descending _ _ _ _ _ Hd E1) Hp Ht).
Qed.

(** C1 (evaluation at the failing input).  A container of capacity 2 that
    is offered rows of sizes 10, 20 and 30 ends with the rows of sizes 30
    and 10: the comparison makes the heap's top its largest item, so the
    third push evicts the row of size 20 and keeps the smaller row of size
    10, where a top-K container keeps 20 and 30. *)
Theorem C1_top_container_evicts_maximum :
  let rows := [("a", "", 10); ("b", "", 20); ("c", "", 30)]%string in
  (exists c, push_all (new 2) rows = Some c /\
     map row_size (all c) = [30; 10]) /\
  map row_size (dropped_all (new 2) rows) = [20].
Proof.
  simpl. split; [eexists; split; reflexivity | reflexivity].
Qed.

End top_container_facts.

(** ** The counter-name parser *)

Section parser_facts.
Import cstr.

Lemma find_last_of_from_spec c s : forall i acc,
  (~ occurs c s -> find_last_of_from c s i acc = acc) /\
  (occurs c s -> i <= find_last_of_from c s i acc < i + Z.of_nat (String.length s)).
Proof.
  unfold occurs.
  induction s as [|a s IH]; intros i acc; simpl.
  - split; [reflexivity | intros []].
  - destruct (IH (i + 1) (if Ascii.eqb a c then i else acc)) as [IHn IHy].
    destruct (in_dec ascii_dec c (list_ascii_of_string s)) as [Hin|Hout].
    + split; [intros H; exfalso; apply H; now right|].
      intros _. specialize (IHy Hin). lia.
    + rewrite (IHn Hout). split.
      * intros H. destruct (Ascii.eqb_spec a c) as [->|]; [exfalso; apply H; now left | reflexivity].
      * intros [->|Hin]; [|contradiction]. rewrite Ascii.eqb_refl. lia.
Qed.

Lemma find_last_of_absent c s : ~ occurs c s -> find_last_of c s = npos.
Proof. intros H. unfold find_last_of. now apply find_last_of_from_spec. Qed.

Lemma find_last_of_present c s :
  occurs c s -> 0 <= find_last_of c s < Z.of_nat (String.length s).
Proof. intros H. unfold find_last_of. now apply (find_last_of_from_spec c s 0 npos). Qed.

Lemma occurs_dec c s : {occurs c s} + {~ occurs c s}.
Proof. apply in_dec, ascii_dec. Qed.

(** For a string shorter than [npos] (every [std::string] is), the test
    [find == npos] of the source says that the character is absent. *)
Lemma find_last_of_npos c s :
  Z.of_nat (String.length s) < npos ->
  find_last_of c s = npos <-> ~ occurs c s.
Proof.
  intros Hlen. split.
  - intros Heq Hin. apply find_last_of_present in Hin. lia.
  - apply find_last_of_absent.
Qed.

(** The position given to [substr] is [find2 + 1] for a ['*'] that was
    found, which is at most the size of the name: [substr] cannot throw. *)
Lemma substr_pos_in_range name :
  occurs "*" name ->
  0 <= find_last_of "*" name + 1 <= Z.of_nat (String.length name).
Proof. intros H. apply find_last_of_present in H. lia. Qed.

Lemma drop_length s : forall pos,
  0 <= pos <= Z.of_nat (String.length s) ->
  Z.of_nat (String.length (drop s pos)) = Z.of_nat (String.length s) - pos.
Proof.
  induction s as [|a s IH]; intros pos Hpos; simpl in *.
  - lia.
  - destruct (Z.ltb_spec 0 pos).
    + rewrite IH by lia. lia.
    + simpl. lia.
Qed.

Lemma take_all s : forall n, Z.of_nat (String.length s) <= n -> take s n = s.
Proof.
  induction s as [|a s IH]; intros n Hn; simpl in *; [reflexivity|].
  destruct (Z.ltb_spec 0 n); [|lia]. now rewrite IH by lia.
Qed.

(** What the parser returns, case by case. *)
Lemma parse_unfold name :
  parse_app_pegasus_perf_counter_name name =
  if find_last_of "@" name =? npos then None
  else match sscanf_d_dot_d (numeric_suffix name) with
       | Scan_2 a b =>
           if find_last_of "*" name =? npos then None
           else Some (a, b, substr name (find_last_of "*" name + 1)
                              (to_size_t (find_last_of "@" name - find_last_of "*" name - 1)))
       | _ => None
       end.
Proof. reflexivity. Qed.

(** C2 (as stated, refuted).  For the sample name, with get_qps between
    its two stars and rdb before its at-sign, the parser does not give the
    metric name get_qps. *)
Lemma C2_metric_name_is_not_get_qps :
  parse_app_pegasus_perf_counter_name "*get_qps*rdb@7.3" <> Some (7, 3, "get_qps"%string).
Proof. vm_compute. discriminate. Qed.

(** C2 (amended).  For the sample name the parser succeeds with
    entity 7, partition 3 and the metric name rdb: the metric name is the
    text between the last star and the last at-sign.  A name without an
    at-sign, or without a star, fails to parse. *)
Theorem C2_parse_example_and_missing_delimiter :
  parse_app_pegasus_perf_counter_name "*get_qps*rdb@7.3" = Some (7, 3, "rdb"%string) /\
  forall name, ~ occurs "@" name \/ ~ occurs "*" name ->
    parse_app_pegasus_perf_counter_name name = None.
Proof.
  split; [vm_compute; reflexivity|].
  intros name H. rewrite parse_unfold.
  destruct H as [H|H]; apply find_last_of_absent in H.
  - rewrite H. reflexivity.
  - destruct (find_last_of "@" name =? npos); [reflexivity|].
    destruct (sscanf_d_dot_d (numeric_suffix name)); try reflexivity.
    rewrite H. reflexivity.
Qed.

Lemma C2_parse_missing_delimiter_witness :
  parse_app_pegasus_perf_counter_name "get_qps@7.3" = None.
Proof.
  apply (proj2 C2_parse_example_and_missing_delimiter).
  right. unfold occurs. simpl. intros H.
  repeat (destruct H as [H|H]; [discriminate H|]). exact H.
Defined.

(** C5 (as stated, refuted).  A name whose last star comes after its last
    at-sign can parse: the order of the two delimiters is not tested. *)
Lemma C5_star_after_at_parses :
  ~ (forall name,
       occurs "@" name -> occurs "*" name ->
       find_last_of "@" name < find_last_of "*" name ->
       parse_app_pegasus_perf_counter_name name = None).
Proof.
  intros H. specialize (H "a@7.3*"%string).
  assert (Hp : parse_app_pegasus_perf_counter_name "a@7.3*" = Some (7, 3, ""%string))
    by (vm_compute; reflexivity).
  rewrite H in Hp; [discriminate Hp| | |].
  - unfold occurs. simpl. tauto.
  - unfold occurs. simpl. tauto.
  - vm_compute. reflexivity.
Qed.

(** C5 (amended).  The parser fails exactly when the name has no at-sign,
    or [sscanf] does not read two integers separated by a dot at the start
    of the text after the last at-sign, or the name has no star.  The order
    of the delimiters is not tested: when the last star comes after the
    last at-sign and the two integers are read, the parser succeeds, and
    the metric name is the text after the last star. *)
Theorem C5_parse_fails_exactly_when name :
  Z.of_nat (String.length name) < npos ->
  (parse_app_pegasus_perf_counter_name name = None <->
     ~ occurs "@" name \/
     scanned_n (sscanf_d_dot_d (numeric_suffix name)) <> 2 \/
     ~ occurs "*" name) /\
  (forall a b,
     occurs "@" name -> occurs "*" name ->
     find_last_of "@" name < find_last_of "*" name ->
     sscanf_d_dot_d (numeric_suffix name) = Scan_2 a b ->
     parse_app_pegasus_perf_counter_name name
     = Some (a, b, drop name (find_last_of "*" name + 1))).
Proof.
  intros Hlen. rewrite parse_unfold. split.
  - pose proof (find_last_of_npos "@" name Hlen) as Hat.
    pose proof (find_last_of_npos "*" name Hlen) as Hstar.
    destruct (Z.eqb_spec (find_last_of "@" name) npos) as [Ea|Ea].
    + split; [intros _; left; tauto | reflexivity].
    + destruct (sscanf_d_dot_d (numeric_suffix name)) eqn:Es; simpl;
        try (split; [intros _; right; left; discriminate | reflexivity]).
      destruct (Z.eqb_spec (find_last_of "*" name) npos) as [Eb|Eb].
      * split; [intros _; right; right; tauto | reflexivity].
      * split; [discriminate|]. intros [H|[H|H]]; [tauto | congruence | tauto].
  - intros a b Hat Hstar Hord Es. rewrite Es.
    pose proof (find_last_of_present _ _ Hat) as Ba.
    pose proof (find_last_of_present _ _ Hstar) as Bb.
    destruct (Z.eqb_spec (find_last_of "@" name) npos) as [Ea|_]; [lia|].
    destruct (Z.eqb_spec (find_last_of "*" name) npos) as [Eb|_]; [lia|].
    unfold substr. rewrite take_all; [reflexivity|].
    rewrite drop_length by lia. unfold to_size_t.
    rewrite <- (Z.mod_unique (find_last_of "@" name - find_last_of "*" name - 1) (2 ^ 64) (-1)
                 (find_last_of "@" name - find_last_of "*" name - 1 + 2 ^ 64)); unfold npos in *; lia.
Qed.

Lemma C5_parse_fails_exactly_when_witness :
  parse_app_pegasus_perf_counter_name "a@7.3*" = Some (7, 3, ""%string).
Proof.
  refine (proj2 (C5_parse_fails_exactly_when "a@7.3*" _) 7 3 _ _ _ _).
  - vm_compute. reflexivity.
  - unfold occurs. simpl. tauto.
  - unfold occurs. simpl. tauto.
  - vm_compute. reflexivity.
  - vm_compute. reflexivity.
Defined.

End parser_facts.

(** ** The scan pipeline *)

Section scan_facts.
Import scan.
Variable context : scan_data_context.

Lemma run_app ls1 : forall ls2 s,
  run context (ls1 ++ ls2) s =
  match run context ls1 s with
  | Some s' => run context ls2 s'
  | None => None
  end.
Proof.
  induction ls1 as [|l ls1 IH]; intros ls2 s; simpl; [reflexivity|].
  destruct (exec context l s); [apply IH | reflexivity].
Qed.

Lemma reachable_init : reachable context (init context).
Proof. exists []. reflexivity. Qed.

Lemma reachable_step s l s' :
  reachable context s -> exec context l s = Some s' -> reachable context s'.
Proof.
  intros [ls Hls] Hl. exists (ls ++ [l]). rewrite run_app, Hls. simpl. now rewrite Hl.
Qed.

(** Induction over the runs of a split. *)
Lemma reachable_invariant (P : state -> Prop) :
  P (init context) ->
  (forall s l s', reachable context s -> P s -> exec context l s = Some s' -> P s') ->
  forall s, reachable context s -> P s.
Proof.
  intros Hinit Hstep s [ls Hls]. revert s Hls.
  induction ls as [|l ls IH] using rev_ind; intros s Hls.
  - injection Hls as <-. exact Hinit.
  - rewrite run_app in Hls. destruct (run context ls (init context)) as [s0|] eqn:H0; [|discriminate].
    simpl in Hls. destruct (exec context l s0) as [s1|] eqn:H1; [|discriminate].
    injection Hls as <-. apply (Hstep s0 l s1); [now exists ls | now apply IH | exact H1].
Qed.

(** A property of single threads holds of every thread of a run when the
    first thread has it, a step keeps it and every callback starts with it. *)
Lemma threads_invariant (T : thread -> Prop) :
  T {| code := Call_scan_data_next Done; hist := [] |} ->
  (forall m t r, T t -> step_thread context m t = Some r -> T (new_thread r)) ->
  (forall r y p, callback context r y = Some p -> T {| code := p; hist := [] |}) ->
  forall s, reachable context s -> Forall T (threads s).
Proof.
  intros Hinit Hstep Hcb. apply reachable_invariant.
  - simpl. apply Forall_singleton, Hinit.
  - intros s l s' _ IH Hl. destruct l as [tid|i y|]; simpl in Hl.
    + destruct (threads s !! tid) as [t|] eqn:Et; [|discriminate].
      destruct (step_thread context (mem s) t) as [r|] eqn:Er; [|discriminate].
      injection Hl as <-. simpl. apply Forall_insert; [exact IH|].
      apply (Hstep (mem s) t r); [|exact Er]. exact (Forall_lookup_1 _ _ _ _ IH Et).
    + destruct (pending s !! i) as [r|] eqn:Ep; [|discriminate].
      destruct (callback context r y) as [p|] eqn:Ec; [|discriminate].
      injection Hl as <-. simpl. apply Forall_app_2; [exact IH|].
      apply Forall_singleton. exact (Hcb r y p Ec).
    + injection Hl as <-. exact IH.
Qed.

(** *** The loop condition comes before every fetch *)

Lemma will_check_release h : will_check context release h.
Proof. simpl. split; [discriminate | exact I]. Qed.

Lemma will_check_scan_data_next k h :
  (forall h', will_check context k h') -> will_check context (scan_data_next context k) h.
Proof.
  intros Hk. simpl. intros [|]; [apply Hk|]. intros [|]; [apply Hk|]. intros [|]; [|apply Hk].
  split; [discriminate|]. split; [|exact Hk].
  intros _. eexists. reflexivity.
Qed.

Lemma will_check_on_failure f e h : will_check context (on_failure context f e) h.
Proof.
  simpl. intros [|]; [apply will_check_release|].
  split; [discriminate|]. split; [discriminate|]. apply will_check_release.
Qed.

Lemma will_check_callback r y p :
  callback context r y = Some p -> forall h, will_check context p h.
Proof.
  assert (Hop : forall f e h, will_check context (on_op_done context f e) h).
  { intros f e h. unfold on_op_done. destruct (is_ok e); [|apply will_check_on_failure].
    simpl. split; [discriminate|]. intros h'. apply will_check_release. }
  intros Hc h. destruct r, y; simpl in Hc; try discriminate; injection Hc as <-; try apply Hop.
  destruct ret; simpl.
  - unfold count_row.
    destruct (op context); simpl;
      try (split; [discriminate|]; split; [discriminate|]; apply will_check_release).
    split; [discriminate|].
    destruct (stat_size context); simpl; [|intros h'; apply will_check_release].
    repeat (split; [discriminate|]).
    destruct (0 <? top_count context); simpl;
      [split; [discriminate|] |]; intros h'; apply will_check_release.
  - split; [discriminate|]. apply will_check_release.
  - intros [|]; [apply will_check_release|].
    split; [discriminate|]. split; [discriminate|]. apply will_check_release.
Qed.

Lemma checks_before_fetches_step m t r :
  checks_before_fetches context t -> step_thread context m t = Some r ->
  checks_before_fetches context (new_thread r).
Proof.
  destruct t as [p h]. unfold checks_before_fetches, step_thread. simpl.
  intros [Hh Hp] Hs. destruct p; simpl in *; try discriminate.
  - destruct (do_action a m); [|discriminate]. injection Hs as <-. simpl.
    destruct Hp as [Ha Hk].
    split; [split; [intros E; injection E as ->; now apply Ha | exact Hh] | exact Hk].
  - injection Hs as <-. simpl. repeat split; auto. discriminate.
  - injection Hs as <-. simpl. repeat split; auto. discriminate.
  - injection Hs as <-. simpl. repeat split; auto. discriminate.
  - injection Hs as <-. simpl. repeat split; auto. discriminate.
  - injection Hs as <-. simpl. split; [exact Hh|].
    apply (will_check_scan_data_next p h Hp).
Qed.

Lemma fetches_are_checked s :
  reachable context s -> Forall (checks_before_fetches context) (threads s).
Proof.
  apply threads_invariant.
  - split; simpl; [exact I|]. intros h'. exact I.
  - apply checks_before_fetches_step.
  - intros r y p Hc. split; [exact I|]. simpl. exact (will_check_callback r y p Hc []).
Qed.

(** *** The timeout of the row operations *)

Lemma will_carry_callback r y p :
  callback context r y = Some p -> will_carry (timeout_ms context) p.
Proof.
  assert (Hrel : will_carry (timeout_ms context) release).
  { simpl. split; [discriminate | exact I]. }
  assert (Hfail : forall f e, will_carry (timeout_ms context) (on_failure context f e)).
  { intros f e. simpl. intros [|]; [exact Hrel|].
    split; [discriminate|]. split; [discriminate|]. exact Hrel. }
  assert (Hop : forall f e, will_carry (timeout_ms context) (on_op_done context f e)).
  { intros f e. unfold on_op_done. destruct (is_ok e); [|apply Hfail].
    simpl. split; [discriminate|]. exact Hrel. }
  intros Hc. destruct r, y; simpl in Hc; try discriminate; injection Hc as <-; try apply Hop.
  destruct ret as [| |c]; simpl.
  - unfold count_row.
    destruct (op context); simpl;
      try (split; [discriminate|]; split; [|exact Hrel];
           intros r Hr; injection Hr as <-; reflexivity).
    split; [discriminate|].
    destruct (stat_size context); simpl; [|exact Hrel].
    repeat (split; [discriminate|]).
    destruct (0 <? top_count context); simpl; [split; [discriminate|] |]; exact Hrel.
  - split; [discriminate|]. exact Hrel.
  - apply (Hfail Scan_next_failed (PERR_FAILED c)).
Qed.

Lemma carries_timeout_step m t r :
  carries_timeout context t -> step_thread context m t = Some r -> carries_timeout context (new_thread r).
Proof.
  destruct t as [p h]. unfold carries_timeout, step_thread. simpl.
  intros [Hh Hp] Hs. destruct p; simpl in *; try discriminate.
  - destruct (do_action a m); [|discriminate]. injection Hs as <-. simpl.
    destruct Hp as [Ha Hk]. split; [|exact Hk].
    destruct a; simpl; try exact Hh. constructor; [|exact Hh]. now apply Ha.
  - injection Hs as <-. simpl. auto.
  - injection Hs as <-. simpl. auto.
  - injection Hs as <-. simpl. auto.
  - injection Hs as <-. simpl. auto.
  - injection Hs as <-. simpl. split; [exact Hh|].
    intros [|]; [exact Hp|]. intros [|]; [exact Hp|]. intros [|]; [|exact Hp].
    split; [discriminate|]. split; [|exact Hp]. intros r Hr. injection Hr as <-. exact I.
Qed.

Lemma row_operations_carry_timeout s :
  reachable context s -> Forall (carries_timeout context) (threads s).
Proof.
  apply threads_invariant.
  - split; simpl; [constructor | exact I].
  - apply carries_timeout_step.
  - intros r y p Hc. split; [constructor|]. simpl. exact (will_carry_callback r y p Hc).
Qed.

(** *** One line on [stderr] at most *)

Lemma owed_app ts1 ts2 : owed (ts1 ++ ts2) = (owed ts1 + owed ts2)%nat.
Proof. apply sum_list_with_app. Qed.

Lemma owed_insert ts : forall i t t',
  ts !! i = Some t ->
  (owed (<[i:=t']> ts) + debt (code t) = owed ts + debt (code t'))%nat.
Proof.
  unfold owed. induction ts as [|t0 ts IH]; intros [|i] t t' H; simpl in *; try discriminate.
  - injection H as ->. lia.
  - specialize (IH i t t' H). lia.
Qed.

Lemma debt_scan_data_next k : debt (scan_data_next context k) = debt k.
Proof. simpl. lia. Qed.

Lemma debt_on_failure f e : debt (on_failure context f e) = 0%nat.
Proof. reflexivity. Qed.

Lemma debt_callback r y p : callback context r y = Some p -> debt p = 0%nat.
Proof.
  assert (Hop : forall f e, debt (on_op_done context f e) = 0%nat).
  { intros f e. unfold on_op_done. destruct (is_ok e); reflexivity. }
  intros Hc. destruct r, y; simpl in Hc; try discriminate; injection Hc as <-; try apply Hop.
  destruct ret as [| |c]; simpl; try reflexivity.
  unfold count_row. destruct (op context); simpl; try reflexivity.
  destruct (stat_size context); simpl; [|reflexivity].
  destruct (0 <? top_count context); reflexivity.
Qed.

Lemma one_line_scan_data_next k :
  one_line_per_win k -> one_line_per_win (scan_data_next context k).
Proof. simpl. tauto. Qed.

Lemma one_line_on_failure f e : one_line_per_win (on_failure context f e).
Proof. simpl. repeat split. lia. Qed.

Lemma one_line_callback r y p : callback context r y = Some p -> one_line_per_win p.
Proof.
  assert (Hop : forall f e, one_line_per_win (on_op_done context f e)).
  { intros f e. unfold on_op_done. destruct (is_ok e); [exact I | apply one_line_on_failure]. }
  intros Hc. destruct r, y; simpl in Hc; try discriminate; injection Hc as <-; try apply Hop.
  destruct ret as [| |c]; simpl; try exact I.
  - unfold count_row. destruct (op context); simpl; try exact I.
    destruct (stat_size context); simpl; [|exact I].
    destruct (0 <? top_count context); exact I.
  - repeat split. lia.
Qed.

Lemma one_line_threads s :
  reachable context s -> Forall (fun t => one_line_per_win (code t)) (threads s).
Proof.
  apply threads_invariant.
  - exact I.
  - intros m [p h] r Hp Hs. unfold step_thread in Hs. simpl in *.
    destruct p; simpl in *; try discriminate.
    + destruct (do_action a m); [|discriminate]. injection Hs as <-. exact Hp.
    + injection Hs as <-. simpl. destruct (split_completed m); tauto.
    + injection Hs as <-. simpl. destruct (error_occurred m); tauto.
    + injection Hs as <-. simpl. destruct (split_request_count m <? bound); tauto.
    + injection Hs as <-. simpl. destruct (split_completed m); tauto.
    + injection Hs as <-. simpl. tauto.
  - intros r y p Hc. simpl. exact (one_line_callback r y p Hc).
Qed.

Lemma do_action_debt a k m m' :
  do_action a m = Some m' ->
  debt (Do a k) = (length (printed a) + debt k)%nat /\
  (split_completed m = true -> split_completed m' = true).
Proof.
  intros H. destruct a; simpl in *; try (injection H as <-; simpl; split; [reflexivity | tauto]).
  destruct (top_container.push (top_rows m) hash_key sort_key row_size); [|discriminate].
  injection H as <-. simpl. split; [reflexivity | tauto].
Qed.

Lemma lines_bounded_reachable s : reachable context s -> lines_bounded s.
Proof.
  revert s. apply reachable_invariant; unfold lines_bounded.
  - simpl. lia.
  - intros s l s' Hreach IH Hl. destruct l as [tid|i y|]; simpl in Hl.
    + destruct (threads s !! tid) as [t|] eqn:Et; [|discriminate].
      destruct (step_thread context (mem s) t) as [r|] eqn:Er; [|discriminate].
      injection Hl as <-. simpl. rewrite length_app.
      pose proof (owed_insert (threads s) tid t (new_thread r) Et) as Hins.
      pose proof (Forall_lookup_1 _ _ _ _ (one_line_threads s Hreach) Et) as Hone.
      destruct t as [p h]. unfold step_thread in Er. cbn [code hist] in Er, Hins, Hone.
      destruct p; try discriminate.
      * destruct (do_action a (mem s)) as [m'|] eqn:Ea; [|discriminate].
        injection Er as <-. cbn [new_mem new_thread new_messages code] in *.
        destruct (do_action_debt a p _ _ Ea) as [Hd Hc]. rewrite Hd in Hins.
        destruct (split_completed (mem s)); [rewrite Hc by reflexivity; lia|].
        destruct (split_completed m'); lia.
      * injection Er as <-. simpl in *.
        destruct (split_completed (mem s)); simpl in *; lia.
      * injection Er as <-. simpl in *.
        destruct (error_occurred (mem s)); destruct (split_completed (mem s)); simpl in *; lia.
      * injection Er as <-. simpl in *.
        destruct (split_request_count (mem s) <? bound);
          destruct (split_completed (mem s)); simpl in *; lia.
      * injection Er as <-. simpl in *.
        destruct (split_completed (mem s)); simpl in *; lia.
      * injection Er as <-. cbn [new_mem new_thread new_messages code] in *.
        rewrite debt_scan_data_next in Hins.
        destruct (split_completed (mem s)); simpl in *; lia.
    + destruct (pending s !! i) as [r|] eqn:Ep; [|discriminate].
      destruct (callback context r y) as [p|] eqn:Ec; [|discriminate].
      injection Hl as <-. simpl. rewrite owed_app. unfold owed at 2. simpl.
      rewrite (debt_callback r y p Ec). lia.
    + injection Hl as <-. simpl. exact IH.
Qed.

(** *** A callback run on its own *)

Lemma thread_after_insert (ts : list thread) tid t t' :
  ts !! tid = Some t -> <[tid := t']> ts !! tid = Some t'.
Proof. intros H. apply list_lookup_insert_eq. exact (lookup_lt_Some _ _ _ H). Qed.

(** The failure branch on a split whose flag is unset: the exchange sets
    the flag, the line is printed, the shared error flag is set. *)
Lemma on_failure_wins s tid h f e :
  threads s !! tid = Some {| code := on_failure context f e; hist := h |} ->
  split_completed (mem s) = false ->
  exists s', run context [Run tid; Run tid; Run tid; Run tid] s = Some s' /\
    stderr s' = stderr s ++ [ERROR f (split_id context) e] /\
    split_completed (mem s') = true /\
    error_occurred (mem s') = true /\
    split_request_count (mem s') = split_request_count (mem s) - 1 /\
    pending s' = pending s /\
    exists h', threads s' !! tid = Some {| code := Done; hist := h' |}.
Proof.
  intros Ht Hc. eexists. split.
  - cbn [run exec]. rewrite Ht. unfold step_thread at 1. cbn. rewrite Hc.
    rewrite (thread_after_insert _ _ _ _ Ht). cbn. rewrite list_insert_insert_eq.
    rewrite (thread_after_insert _ _ _ _ Ht). cbn. rewrite list_insert_insert_eq.
    rewrite (thread_after_insert _ _ _ _ Ht). cbn. rewrite list_insert_insert_eq.
    reflexivity.
  - cbn. rewrite !app_nil_r. repeat split.
    eexists. apply (thread_after_insert _ _ _ _ Ht).
Qed.

(** The failure branch on a split whose flag is set: nothing is printed
    and the shared error flag is left as it is. *)
Lemma on_failure_loses s tid h f e :
  threads s !! tid = Some {| code := on_failure context f e; hist := h |} ->
  split_completed (mem s) = true ->
  exists s', run context [Run tid; Run tid] s = Some s' /\
    stderr s' = stderr s /\
    split_completed (mem s') = true /\
    error_occurred (mem s') = error_occurred (mem s) /\
    split_request_count (mem s') = split_request_count (mem s) - 1 /\
    pending s' = pending s /\
    exists h', threads s' !! tid = Some {| code := Done; hist := h' |}.
Proof.
  intros Ht Hc. eexists. split.
  - cbn [run exec]. rewrite Ht. unfold step_thread at 1. cbn. rewrite Hc.
    rewrite (thread_after_insert _ _ _ _ Ht). cbn. rewrite list_insert_insert_eq.
    reflexivity.
  - cbn. rewrite !app_nil_r. repeat split.
    eexists. apply (thread_after_insert _ _ _ _ Ht).
Qed.

(** The end-of-data branch: the flag is stored, nothing else. *)
Lemma end_of_data_runs s tid h :
  threads s !! tid = Some {| code := Do Store_completed release; hist := h |} ->
  exists s', run context [Run tid; Run tid] s = Some s' /\
    stderr s' = stderr s /\
    split_completed (mem s') = true /\
    error_occurred (mem s') = error_occurred (mem s) /\
    split_request_count (mem s') = split_request_count (mem s) - 1 /\
    pending s' = pending s /\
    threads s' !! tid = Some {| code := Done;
                                hist := Ev_do Dec_request_count :: Ev_do Store_completed :: h |}.
Proof.
  intros Ht. eexists. split.
  - cbn [run exec]. rewrite Ht. unfold step_thread at 1. cbn.
    rewrite (thread_after_insert _ _ _ _ Ht). cbn. rewrite list_insert_insert_eq.
    reflexivity.
  - cbn. rewrite !app_nil_r. repeat split.
    apply (thread_after_insert _ _ _ _ Ht).
Qed.

(** A callback starts as the last thread. *)
Lemma deliver_starts_callback s i y s1 :
  exec context (Deliver i y) s = Some s1 ->
  exists r p, pending s !! i = Some r /\ callback context r y = Some p /\
    mem s1 = mem s /\ stderr s1 = stderr s /\ pending s1 = delete i (pending s) /\
    threads s1 !! length (threads s) = Some {| code := p; hist := [] |}.
Proof.
  simpl. intros H.
  destruct (pending s !! i) as [r|] eqn:Ep; [|discriminate].
  destruct (callback context r y) as [p|] eqn:Ec; [|discriminate].
  injection H as <-. exists r, p. simpl. repeat split; try assumption.
  now apply list_lookup_middle.
Qed.

(** The callbacks of a failed fetch, set, delete or geo set all take the
    failure branch. *)
Lemma failing_callback r y p :
  callback context r y = Some p -> failing y = true ->
  exists f e, p = on_failure context f e.
Proof.
  intros Hc Hy. destruct r, y; simpl in *; try discriminate; injection Hc as <-.
  - destruct ret; try discriminate. eexists _, _. reflexivity.
  - unfold on_op_done. destruct (is_ok err); [discriminate|]. eexists _, _. reflexivity.
  - unfold on_op_done. destruct (is_ok err); [discriminate|]. eexists _, _. reflexivity.
  - unfold on_op_done. destruct (is_ok err); [discriminate|]. eexists _, _. reflexivity.
Qed.

(** *** The pending requests stay within the budget *)

Lemma sum_over_app f ts1 ts2 : sum_over f (ts1 ++ ts2) = sum_over f ts1 + sum_over f ts2.
Proof. unfold sum_over. induction ts1 as [|t ts1 IH]; simpl; lia. Qed.

Lemma sum_over_insert f ts : forall i t t',
  ts !! i = Some t -> sum_over f (<[i:=t']> ts) = sum_over f ts - f t + f t'.
Proof.
  unfold sum_over. induction ts as [|t0 ts IH]; intros [|i] t t' H; simpl in *; try discriminate.
  - injection H as ->. lia.
  - rewrite (IH i t t' H). lia.
Qed.

Lemma sum_over_le f g ts :
  Forall (fun t => f t <= g t) ts -> sum_over f ts <= sum_over g ts.
Proof. unfold sum_over. induction 1; simpl; lia. Qed.

Lemma sum_over_le_but_one f g ts : forall i t,
  Forall (fun t => f t <= g t) ts -> ts !! i = Some t ->
  sum_over f ts - f t <= sum_over g ts - g t.
Proof.
  unfold sum_over. induction ts as [|t0 ts IH]; intros [|i] t Hall H; simpl in *;
    try discriminate; apply Forall_cons in Hall; destruct Hall as [H0 Hall].
  - injection H as ->. pose proof (sum_over_le f g ts Hall) as Hle. unfold sum_over in Hle. lia.
  - specialize (IH i t Hall H). lia.
Qed.

Lemma sound_measures extra p :
  sound context extra p -> 0 <= slots p /\ commit p <= slots p + extra.
Proof. destruct p; simpl; tauto. Qed.

Lemma sound_release : sound context 0 release.
Proof. simpl. lia. Qed.

Lemma sound_scan_data_next extra k :
  sound context extra (Call_scan_data_next k) -> sound context extra (scan_data_next context k).
Proof.
  intros (H0 & _ & Hc & H1 & Hk). simpl in H0.
  pose proof (sound_measures extra k Hk) as [Hk0 Hk1].
  assert (Hfetch : sound context extra
            (Do Inc_request_count (Do (Issue Async_next) (Call_scan_data_next k)))).
  { simpl. repeat split; try lia. exact Hk. }
  assert (Hlt : sound context extra
            (Load_count_lt (max_batch_count context) (fun below =>
               if below
               then Do Inc_request_count (Do (Issue Async_next) (Call_scan_data_next k))
               else k))).
  { split; [simpl; lia|]. split; [simpl; lia|].
    split; [reflexivity|]. split; [simpl; lia|]. split; [exact Hc|]. split; [simpl; lia|].
    intros [|]; (split; [simpl; lia|]); assumption. }
  assert (Herr : sound context extra
            (Load_error (fun error =>
               if error then k
               else Load_count_lt (max_batch_count context) (fun below =>
                 if below
                 then Do Inc_request_count (Do (Issue Async_next) (Call_scan_data_next k))
                 else k)))).
  { split; [simpl; lia|]. split; [simpl; lia|].
    intros [|]; (split; [simpl; lia|]); (split; [simpl; lia|]); assumption. }
  unfold scan_data_next.
  split; [simpl; lia|]. split; [simpl; lia|].
  intros [|]; (split; [simpl; lia|]); (split; [simpl; lia|]); assumption.
Qed.

Lemma sound_on_failure f e : sound context 0 (on_failure context f e).
Proof.
  unfold on_failure. split; [simpl; lia|]. split; [simpl; lia|].
  intros [|]; simpl; repeat split; lia.
Qed.

Lemma sound_callback r y p :
  callback context r y = Some p -> sound context 0 p /\ slots p = 1 /\ commit p <= 1.
Proof.
  assert (Hop : forall f e, sound context 0 (on_op_done context f e)
                            /\ slots (on_op_done context f e) = 1
                            /\ commit (on_op_done context f e) <= 1).
  { intros f e. unfold on_op_done. destruct (is_ok e).
    - simpl. repeat split; lia.
    - split; [apply sound_on_failure|]. simpl. lia. }
  intros Hc. destruct r, y; simpl in Hc; try discriminate; injection Hc as <-; try apply Hop.
  destruct ret as [| |c].
  - simpl. unfold count_row. destruct (op context); simpl; try (repeat split; lia).
    destruct (stat_size context); simpl; [|repeat split; lia].
    destruct (0 <? top_count context); simpl; repeat split; lia.
  - simpl. repeat split; lia.
  - split; [apply sound_on_failure|]. simpl. lia.
Qed.

(** One step of a thread: its shape is kept; the count changes by the
    requests it issues and the slots it gives up; and it becomes bound to a
    new request only by reading the count as less than [max_batch_count]
    while it holds a slot (or is the caller). *)
Lemma step_measures extra m t r :
  sound context extra (code t) ->
  step_thread context m t = Some r ->
  sound context extra (code (new_thread r)) /\
  split_request_count (new_mem r) + slots (code t)
  = split_request_count m + Z.of_nat (length (new_requests r)) + slots (code (new_thread r)) /\
  (commit (code (new_thread r)) + Z.of_nat (length (new_requests r)) <= commit (code t)
   \/ (split_request_count m < max_batch_count context /\
       1 <= slots (code t) + extra /\
       commit (code t) = 0 /\
       new_requests r = [] /\
       commit (code (new_thread r)) <= 1)).
Proof.
  destruct t as [p h]. unfold step_thread. simpl. intros Hs Hr.
  destruct p; try discriminate.
  - destruct (do_action a m) as [m'|] eqn:Ea; [|discriminate].
    injection Hr as <-. simpl. destruct Hs as (H0 & H1 & Hk).
    split; [exact Hk|].
    destruct a; simpl in *; try (injection Ea as <-; simpl; split; [lia | left; lia]).
    destruct (top_container.push (top_rows m) hash_key sort_key row_size); [|discriminate].
    injection Ea as <-. simpl. split; [lia | left; lia].
  - injection Hr as <-. simpl. destruct Hs as (H0 & H1 & Hk).
    destruct (Hk (split_completed m)) as (Hsl & Hc & Hsound). simpl in Hsl.
    split; [exact Hsound|]. split; [lia | left; lia].
  - injection Hr as <-. simpl. destruct Hs as (H0 & H1 & Hk).
    destruct (Hk (error_occurred m)) as (Hsl & Hc & Hsound). simpl in Hsl.
    split; [exact Hsound|]. split; [lia | left; lia].
  - injection Hr as <-. simpl. destruct Hs as (H0 & H1 & Hb & Hx & Hcf & Hct & Hk).
    destruct (Hk (split_request_count m <? bound)) as (Hsl & Hsound). simpl in Hsl.
    split; [exact Hsound|]. split; [lia|].
    destruct (Z.ltb_spec (split_request_count m) bound) as [Hlt|Hge].
    + right. simpl in Hx. repeat split; lia.
    + left. lia.
  - injection Hr as <-. simpl. destruct Hs as (H0 & H1 & Hk).
    destruct (Hk (split_completed m)) as (Hsl & Hc & Hsound). simpl in Hsl.
    split; [exact Hsound|]. split; [lia | left; lia].
  - injection Hr as <-. simpl.
    split; [apply sound_scan_data_next; exact Hs|]. split; [lia | left; lia].
Qed.

Lemma within_budget_reachable s : reachable context s -> within_budget context s.
Proof.
  revert s. apply reachable_invariant.
  - exists {| code := Call_scan_data_next Done; hist := [] |}, []. simpl.
    repeat split; try lia. constructor.
  - intros s l s' _ (main & callbacks & Hth & Hmain & Hcbs & Hcount & Hbudget) Hl.
    destruct l as [tid|i y|]; simpl in Hl.
    + rewrite Hth in Hl. destruct tid as [|j]; simpl in Hl.
      * (* the caller takes a step *)
        destruct (step_thread context (mem s) main) as [r|] eqn:Er; [|discriminate].
        injection Hl as <-.
        destruct (step_measures 1 _ _ _ Hmain Er) as (Hsound & Hcnt & Hcommit).
        exists (new_thread r), callbacks. simpl. rewrite length_app.
        split; [reflexivity|]. split; [exact Hsound|]. split; [exact Hcbs|].
        split; [lia|].
        destruct Hcommit as [Hle|(Hlt & Hx & Hc0 & Hnew & Hc1)]; [lia|].
        rewrite Hnew. simpl.
        pose proof (sum_over_le (fun t => commit (code t)) (fun t => slots (code t)) callbacks)
          as Hsum.
        assert (Hall : Forall (fun t => commit (code t) <= slots (code t)) callbacks).
        { apply (Forall_impl _ _ _ Hcbs). intros t Ht.
          destruct (sound_measures 0 _ Ht). lia. }
        specialize (Hsum Hall). destruct (sound_measures 1 _ Hmain). lia.
      * (* a callback takes a step *)
        destruct (callbacks !! j) as [t|] eqn:Et; [|discriminate].
        destruct (step_thread context (mem s) t) as [r|] eqn:Er; [|discriminate].
        injection Hl as <-.
        pose proof (Forall_lookup_1 _ _ _ _ Hcbs Et) as Ht.
        destruct (step_measures 0 _ _ _ Ht Er) as (Hsound & Hcnt & Hcommit).
        exists main, (<[j := new_thread r]> callbacks). simpl. rewrite length_app.
        rewrite !(sum_over_insert _ _ _ _ _ Et).
        split; [reflexivity|]. split; [exact Hmain|].
        split; [apply Forall_insert; assumption|].
        split; [lia|].
        destruct Hcommit as [Hle|(Hlt & Hx & Hc0 & Hnew & Hc1)]; [lia|].
        rewrite Hnew. simpl.
        assert (Hall : Forall (fun t => commit (code t) <= slots (code t)) callbacks).
        { apply (Forall_impl _ _ _ Hcbs). intros t' Ht'.
          destruct (sound_measures 0 _ Ht'). lia. }
        pose proof (sum_over_le_but_one (fun t => commit (code t)) (fun t => slots (code t))
                      callbacks j t Hall Et) as Hsum. simpl in Hsum.
        destruct (sound_measures 1 _ Hmain). lia.
    + destruct (pending s !! i) as [r|] eqn:Ep; [|discriminate].
      destruct (callback context r y) as [p|] eqn:Ec; [|discriminate].
      injection Hl as <-.
      destruct (sound_callback r y p Ec) as (Hsound & Hsl & Hc1).
      exists main, (callbacks ++ [{| code := p; hist := [] |}]). simpl.
      rewrite Hth, !sum_over_app. simpl.
      pose proof (lookup_lt_Some _ _ _ Ep) as Hlt.
      rewrite length_delete by (eexists; exact Ep).
      split; [reflexivity|]. split; [exact Hmain|].
      split; [apply Forall_app_2; [exact Hcbs | apply Forall_singleton; exact Hsound]|].
      split; lia.
    + injection Hl as <-. exists main, callbacks. simpl. auto.
Qed.

(** The pending requests are never more than [max_batch_count], and the
    request count never less than their number. *)
Lemma commit_nonneg p : 0 <= commit p.
Proof. induction p as [|a k IH| | | | |]; simpl; try lia. destruct a; lia. Qed.

Lemma pending_within_budget s :
  reachable context s ->
  Z.of_nat (length (pending s)) <= Z.max 0 (max_batch_count context) /\
  Z.of_nat (length (pending s)) <= split_request_count (mem s).
Proof.
  intros H.
  destruct (within_budget_reachable s H)
    as (main & callbacks & Hth & Hmain & Hcbs & Hcount & Hbudget).
  assert (Hs : 0 <= sum_over (fun t => slots (code t)) callbacks).
  { clear -Hcbs. unfold sum_over. induction Hcbs as [|t ts Ht _ IH]; simpl; [lia|].
    destruct (sound_measures 0 _ Ht). lia. }
  assert (Hc : 0 <= sum_over (fun t => commit (code t)) callbacks).
  { clear. unfold sum_over. induction callbacks as [|t ts IH]; simpl; [lia|].
    pose proof (commit_nonneg (code t)). lia. }
  pose proof (commit_nonneg (code main)).
  destruct (sound_measures 1 _ Hmain). lia.
Qed.

(** *** The main theorems on the pipeline *)

(** C3 (amended).  In every run of a split, whatever the interleaving of
    its threads: the requests that are outstanding (issued and not yet
    completed: fetches, sets, deletes and geo sets) are never more than
    max_batch_count (than 0, if that is negative), and never more than the
    request count, which counts every running callback as well; and a
    thread issues a fetch only right after it has read split_completed as
    false, the shared error flag as false and the request count as less
    than max_batch_count, and has incremented the count: four atomic steps
    of its own, between which other threads may run. *)
Theorem C3_outstanding_requests_within_cap s :
  reachable context s ->
  Z.of_nat (length (pending s)) <= Z.max 0 (max_batch_count context) /\
  Z.of_nat (length (pending s)) <= split_request_count (mem s) /\
  Forall (fun t => fetches_checked context (hist t)) (threads s).
Proof.
  intros H. destruct (pending_within_budget s H) as [Hcap Hcount].
  split; [exact Hcap|]. split; [exact Hcount|].
  apply (Forall_impl _ _ _ (fetches_are_checked s H)).
  intros t [Hf _]. exact Hf.
Qed.


(** C7.  When the cursor ends a fetch with the end of the data, the
    callback stores true into split_completed and releases its slot: the
    shared error flag is as before and nothing is written to stderr.  A
    fetch that ends with an error on a split whose flag is unset ends
    otherwise: the flag and the shared error flag are both set and a line
    is written. *)
Theorem C7_end_of_data_is_success s i hk sk v s1 :
  exec context (Deliver i (Next_reply PERR_SCAN_COMPLETE hk sk v)) s = Some s1 ->
  let tid := length (threads s) in
  (exists s2, run context [Run tid; Run tid] s1 = Some s2 /\
     split_completed (mem s2) = true /\
     error_occurred (mem s2) = error_occurred (mem s) /\
     stderr s2 = stderr s /\
     threads s2 !! tid =
       Some {| code := Done; hist := [Ev_do Dec_request_count; Ev_do Store_completed] |}) /\
  (forall c s1',
     exec context (Deliver i (Next_reply (PERR_FAILED c) hk sk v)) s = Some s1' ->
     split_completed (mem s) = false ->
     exists s2, run context [Run tid; Run tid; Run tid; Run tid] s1' = Some s2 /\
       split_completed (mem s2) = true /\
       error_occurred (mem s2) = true /\
       stderr s2 = stderr s ++ [ERROR Scan_next_failed (split_id context) (PERR_FAILED c)]).
Proof.
  intros Hd tid. split.
  - destruct (deliver_starts_callback s i _ s1 Hd) as (r & p & Hp & Hc & Hm & He & _ & Ht).
    destruct r; simpl in Hc; try discriminate. injection Hc as <-.
    destruct (end_of_data_runs s1 tid [] Ht) as (s2 & Hrun & Hs & Hcompl & Herr & _ & _ & Hth).
    exists s2. rewrite Hs, Herr, He, Hm. auto.
  - intros c s1' Hd' Hcompl.
    destruct (deliver_starts_callback s i _ s1' Hd') as (r & p & Hp & Hc & Hm & He & _ & Ht).
    destruct r; simpl in Hc; try discriminate. injection Hc as <-.
    destruct (on_failure_wins s1' tid [] Scan_next_failed (PERR_FAILED c) Ht)
      as (s2 & Hrun & Hs & Hcompl2 & Herr & _); [now rewrite Hm|].
    exists s2. rewrite Hs, He. auto.
Qed.

End scan_facts.

(** C3 (as stated, refuted).  With max_batch_count = 1 in copy mode the
    request count reaches 2 in a run of one thread at a time: the caller
    issues the fetch (count 1), and the callback of the fetched row counts
    the set it is about to issue without a check (count 2). *)
Lemma C3_request_count_exceeds_cap :
  ~ (forall context s,
       scan.reachable context s ->
       scan.split_request_count (scan.mem s) <= scan.max_batch_count context).
Proof.
  intros H.
  destruct (scan.run scan.sample_copy scan.sample_overrun (scan.init scan.sample_copy))
    as [s|] eqn:E; [|vm_compute in E; discriminate E].
  assert (Hr : scan.reachable scan.sample_copy s) by (exists scan.sample_overrun; exact E).
  specialize (H _ _ Hr). vm_compute in E. injection E as <-. simpl in H. lia.
Qed.

Lemma C3_outstanding_requests_within_cap_witness :
  exists s, scan.run scan.sample_copy scan.sample_overrun (scan.init scan.sample_copy) = Some s /\
    scan.split_request_count (scan.mem s) = 2 /\
    Z.of_nat (length (scan.pending s)) <= Z.max 0 (scan.max_batch_count scan.sample_copy) /\
    Forall (fun t => scan.fetches_checked scan.sample_copy (scan.hist t)) (scan.threads s).
Proof.
  eexists. split; [vm_compute; reflexivity|]. split; [reflexivity|].
  assert (Hr : scan.reachable scan.sample_copy ?[s])
    by (exists scan.sample_overrun; vm_compute; reflexivity).
  destruct (C3_outstanding_requests_within_cap scan.sample_copy _ Hr) as (Hcap & _ & Hf).
  split; [exact Hcap | exact Hf].
Defined.

(** A failure that comes after the end of the data is silent: in this run
    of a copy job the cursor ends the data (which sets split_completed)
    while the set of the one row is outstanding; the set then fails, its
    callback finds the flag set, and the run ends with an empty stderr and
    the shared error flag unset. *)
Example late_failure_is_silent :
  exists s s',
    scan.run scan.sample_copy_2 scan.sample_end_of_data (scan.init scan.sample_copy_2) = Some s /\
    scan.stderr s = [] /\
    scan.pending s = [scan.Async_set "h" "s" "v" 5000] /\
    scan.run scan.sample_copy_2 scan.sample_late_failure s = Some s' /\
    scan.pending s' = [] /\
    Forall (fun t => scan.code t = scan.Done) (drop 1 (scan.threads s')) /\
    scan.stderr s' = [] /\
    scan.error_occurred (scan.mem s') = false.
Proof.
  eexists. eexists. split; [vm_compute; reflexivity|].
  split; [reflexivity|]. split; [reflexivity|].
  split; [vm_compute; reflexivity|].
  split; [reflexivity|]. split; [|split; reflexivity].
  simpl. repeat constructor.
Qed.



Lemma C7_end_of_data_is_success_witness :
  exists s s1 s2,
    scan.run scan.sample_copy_2 scan.sample_fetch (scan.init scan.sample_copy_2) = Some s /\
    scan.exec scan.sample_copy_2
      (scan.Deliver 0 (scan.Next_reply scan.PERR_SCAN_COMPLETE "" "" "")) s = Some s1 /\
    scan.run scan.sample_copy_2 [scan.Run 1; scan.Run 1] s1 = Some s2 /\
    scan.split_completed (scan.mem s2) = true /\
    scan.error_occurred (scan.mem s2) = false /\
    scan.stderr s2 = [].
Proof.
  destruct (scan.run scan.sample_copy_2 scan.sample_fetch (scan.init scan.sample_copy_2))
    as [s|] eqn:Hs; [|vm_compute in Hs; discriminate Hs].
  destruct (scan.exec scan.sample_copy_2
              (scan.Deliver 0 (scan.Next_reply scan.PERR_SCAN_COMPLETE "" "" "")) s)
    as [s1|] eqn:Hd;
    [|vm_compute in Hs; injection Hs as <-; vm_compute in Hd; discriminate Hd].
  destruct (proj1 (C7_end_of_data_is_success scan.sample_copy_2 _ _ _ _ _ _ Hd))
    as (s2 & Hrun & Hc & He & Hp & _).
  exists s, s1, s2. vm_compute in Hs. injection Hs as <-.
  repeat split; assumption.
Defined.

(** ** The fan-out of a remote command *)

Section remote_facts.
Import remote.
Variable nodes : list node_desc.
Variable cmd : command.

Lemma remote_run_app ls1 : forall ls2 s,
  run nodes cmd (ls1 ++ ls2) s =
  match run nodes cmd ls1 s with
  | Some s' => run nodes cmd ls2 s'
  | None => None
  end.
Proof.
  induction ls1 as [|l ls1 IH]; intros ls2 s; simpl; [reflexivity|].
  destruct (exec nodes cmd l s); [apply IH | reflexivity].
Qed.

Lemma consistent_init results0 : consistent nodes cmd (init nodes results0).
Proof.
  unfold consistent, init. simpl.
  rewrite length_resize, length_replicate. repeat split; try lia.
  intros j y Hj. apply lookup_replicate in Hj. destruct Hj as [Hj _]. discriminate Hj.
Qed.

Lemma consistent_step l s s' :
  consistent nodes cmd s -> exec nodes cmd l s = Some s' -> consistent nodes cmd s'.
Proof.
  intros (Hres & Hrep & Hcalls & Hat & Hdone) Hl. unfold consistent.
  destruct l as [|i y]; simpl in Hl.
  - destruct (at_ s) as [i|i|] eqn:Eat; [| |discriminate].
    + destruct Hat as [Hlen Hle].
      destruct (nodes !! i) as [node|] eqn:En; injection Hl as <-; simpl.
      * pose proof (lookup_lt_Some _ _ _ En) as Hlt.
        rewrite length_app. simpl. rewrite Hlen, Nat.add_1_r.
        repeat split; try assumption; try lia.
        rewrite (take_S_r _ _ _ En), map_app. simpl.
        rewrite Hlen in Hcalls. now rewrite <- Hcalls.
      * apply lookup_ge_None_1 in En.
        repeat split; try assumption; try lia.
    + destruct Hat as [Hlen Hfin].
      destruct (replies s !! i) as [[y|]|] eqn:Er; [| discriminate |];
        injection Hl as <-; simpl.
      * repeat split; try assumption.
        intros j Hj. destruct (decide (j = i)) as [->|Hne]; [eauto|]. apply Hfin. lia.
      * apply lookup_ge_None_1 in Er.
        repeat split; try assumption. intros j Hj. apply Hfin. lia.
  - destruct (calls s !! i) as [c|] eqn:Ec; [|discriminate].
    destruct (replies s !! i) as [[y0|]|] eqn:Er; try discriminate.
    injection Hl as <-. simpl. rewrite !length_insert.
    pose proof (lookup_lt_Some _ _ _ Er) as Hi.
    assert (Hkeep : forall j, (exists y', replies s !! j = Some (Some y')) ->
                    exists y', <[i:=Some y]> (replies s) !! j = Some (Some y')).
    { intros j [y' Hj]. destruct (decide (i = j)) as [->|Hne].
      - exists y. now apply list_lookup_insert_eq.
      - exists y'. now rewrite list_lookup_insert_ne. }
    repeat split; try assumption.
    + destruct (at_ s); destruct Hat as [Hlen Hfin]; split; try assumption;
        intros j Hj; apply Hkeep, Hfin, Hj.
    + intros j y' Hj. destruct (decide (i = j)) as [->|Hne].
      * rewrite list_lookup_insert_eq in Hj by exact Hi. injection Hj as ->.
        apply list_lookup_insert_eq. lia.
      * rewrite list_lookup_insert_ne in Hj by exact Hne.
        rewrite list_lookup_insert_ne by exact Hne. now apply Hdone.
Qed.

Lemma consistent_reachable results0 s :
  reachable nodes cmd results0 s -> consistent nodes cmd s.
Proof.
  intros [ls Hls]. revert s Hls.
  induction ls as [|l ls IH] using rev_ind; intros s Hls.
  - injection Hls as <-. apply consistent_init.
  - rewrite remote_run_app in Hls.
    destruct (run nodes cmd ls (init nodes results0)) as [s0|]; [|discriminate].
    simpl in Hls. destruct (exec nodes cmd l s0) as [s1|] eqn:H1; [|discriminate].
    injection Hls as <-. exact (consistent_step l s0 s1 (IH s0 eq_refl) H1).
Qed.

(** Every call carries the timeout that [call_remote_command] fixes. *)
Lemma calls_carry_5000 results0 s :
  reachable nodes cmd results0 s -> Forall (fun c => rpc_timeout_ms c = 5000) (calls s).
Proof.
  intros H. destruct (consistent_reachable results0 s H) as (_ & _ & Hcalls & _).
  rewrite Hcalls. change (map ?f ?l) with (f <$> l).
  apply Forall_fmap, Forall_true. intros node. reflexivity.
Qed.

(** *** The fan-out returns when its calls complete *)

Lemma remote_reachable_step results0 l s s' :
  reachable nodes cmd results0 s -> exec nodes cmd l s = Some s' ->
  reachable nodes cmd results0 s'.
Proof.
  intros [ls Hls] He. exists (ls ++ [l]).
  rewrite remote_run_app, Hls. simpl. now rewrite He.
Qed.

(** The first loop: the caller makes the calls that are left, and leaves
    the loop. *)
Lemma caller_makes_all_calls results0 rest : forall made s,
  nodes = made ++ rest ->
  reachable nodes cmd results0 s ->
  at_ s = Calling (length made) ->
  exists s', reachable nodes cmd results0 s' /\ at_ s' = Waiting 0 /\ replies s' = replies s.
Proof.
  induction rest as [|node rest IH]; intros made s Hn Hr Hat.
  - rewrite app_nil_r in Hn. subst made.
    eexists. split; [|split].
    + apply (remote_reachable_step results0 Caller s); [exact Hr|].
      unfold exec. rewrite Hat.
      rewrite (lookup_ge_None_2 nodes (length nodes)) by lia. reflexivity.
    + reflexivity.
    + reflexivity.
  - assert (Hl : nodes !! length made = Some node)
      by (rewrite Hn; now apply list_lookup_middle).
    destruct (IH (made ++ [node])
                {| at_ := Calling (S (length made)); results := results s;
                   calls := calls s ++ [call_of cmd node]; replies := replies s |})
      as (s' & Hr' & Hat' & Hrep').
    + now rewrite <- app_assoc.
    + apply (remote_reachable_step results0 Caller s); [exact Hr|].
      unfold exec. now rewrite Hat, Hl.
    + simpl. rewrite length_app. simpl. f_equal. lia.
    + exists s'. auto.
Qed.

(** The calls complete, the first one first, with the replies [ys]. *)
Lemma calls_can_complete results0 ys : forall done s,
  reachable nodes cmd results0 s ->
  length (calls s) = length nodes ->
  replies s = (Some <$> done) ++ replicate (length ys) None ->
  exists s', reachable nodes cmd results0 s' /\ at_ s' = at_ s /\
    replies s' = Some <$> (done ++ ys).
Proof.
  induction ys as [|y ys IH]; intros done s Hr Hc Hrep.
  - exists s. simpl in Hrep. rewrite app_nil_r in *. auto.
  - destruct (consistent_reachable results0 s Hr) as (_ & Hlen & _).
    assert (Hi : (length done < length nodes)%nat).
    { rewrite <- Hlen, Hrep, length_app, length_fmap, length_replicate. simpl. lia. }
    destruct (lookup_lt_is_Some_2 (calls s) (length done)) as [c Hcall]; [lia|].
    assert (Hnone : replies s !! length done = Some None).
    { rewrite Hrep. simpl. apply list_lookup_middle. now rewrite length_fmap. }
    destruct (IH (done ++ [y])
                {| at_ := at_ s; results := <[length done := result_of y]> (results s);
                   calls := calls s; replies := <[length done := Some y]> (replies s) |})
      as (s' & Hr' & Hat' & Hrep').
    + apply (remote_reachable_step results0 (Completes (length done) y) s); [exact Hr|].
      unfold exec. now rewrite Hcall, Hnone.
    + exact Hc.
    + simpl. rewrite Hrep. simpl.
      rewrite insert_app_r_alt by (rewrite length_fmap; lia).
      rewrite length_fmap, Nat.sub_diag. simpl.
      rewrite fmap_app, <- app_assoc. reflexivity.
    + exists s'. rewrite <- app_assoc in Hrep'. auto.
Qed.

(** The second loop: every task has finished, so no [wait] blocks. *)
Lemma caller_passes_all_waits results0 ys k : forall s,
  reachable nodes cmd results0 s ->
  replies s = Some <$> ys ->
  (k <= length ys)%nat ->
  at_ s = Waiting (length ys - k) ->
  exists s', reachable nodes cmd results0 s' /\ at_ s' = Returned /\ replies s' = replies s.
Proof.
  induction k as [|k IH]; intros s Hr Hrep Hk Hat.
  - rewrite Nat.sub_0_r in Hat.
    eexists. split; [|split].
    + apply (remote_reachable_step results0 Caller s); [exact Hr|].
      unfold exec. rewrite Hat, Hrep.
      rewrite (lookup_ge_None_2 (Some <$> ys) (length ys)) by (rewrite length_fmap; lia).
      reflexivity.
    + reflexivity.
    + simpl. now rewrite Hrep.
  - destruct (lookup_lt_is_Some_2 ys (length ys - S k)) as [y Hy]; [lia|].
    destruct (IH {| at_ := Waiting (S (length ys - S k)); results := results s;
                    calls := calls s; replies := replies s |})
      as (s' & Hr' & Hat' & Hrep').
    + apply (remote_reachable_step results0 Caller s); [exact Hr|].
      unfold exec. rewrite Hat, Hrep, list_lookup_fmap, Hy. reflexivity.
    + exact Hrep.
    + lia.
    + simpl. f_equal. lia.
    + exists s'. auto.
Qed.

(** Whatever the calls complete with, [call_remote_command] can return,
    and then with the results of those replies. *)
Lemma fan_out_returns results0 ys :
  length ys = length nodes ->
  exists s, reachable nodes cmd results0 s /\ at_ s = Returned /\
    replies s = Some <$> ys /\ results s = map result_of ys.
Proof.
  intros Hlen.
  destruct (caller_makes_all_calls results0 nodes [] (init nodes results0))
    as (s1 & Hr1 & Hat1 & Hrep1); [reflexivity | now exists [] | reflexivity |].
  destruct (consistent_reachable results0 s1 Hr1) as (_ & _ & _ & Hpos & _).
  rewrite Hat1 in Hpos. destruct Hpos as [Hcalls _].
  destruct (calls_can_complete results0 ys [] s1 Hr1 Hcalls) as (s2 & Hr2 & Hat2 & Hrep2).
  { rewrite Hrep1. simpl. now rewrite Hlen. }
  simpl in Hrep2.
  destruct (caller_passes_all_waits results0 ys (length ys) s2 Hr2 Hrep2)
    as (s3 & Hr3 & Hat3 & Hrep3); [lia | now rewrite Nat.sub_diag, Hat2 |].
  exists s3. split; [exact Hr3|]. split; [exact Hat3|].
  rewrite Hrep3, Hrep2. split; [reflexivity|].
  destruct (consistent_reachable results0 s3 Hr3) as (Hres & _ & _ & _ & Hdone).
  apply list_eq. intros j. change (map ?f ?l) with (f <$> l). rewrite list_lookup_fmap.
  destruct (ys !! j) as [y|] eqn:Ey; simpl.
  - apply Hdone. now rewrite Hrep3, Hrep2, list_lookup_fmap, Ey.
  - apply lookup_ge_None_2. rewrite Hres, <- Hlen. now apply lookup_ge_None_1.
Qed.

(** C9.  When [call_remote_command] has returned, every one of its calls
    has completed: one call was made per node, in order, and for each node
    the result at its index is the one its own reply has produced, true
    with the reply text when the call succeeded and false with the name of
    the error (a timeout is one) otherwise; there are as many results as
    nodes.  And it does return when its calls complete: whatever the
    replies of the nodes, failures and timeouts among them, there is a run
    that returns, with the result of each reply at the index of its node. *)
Theorem C9_fan_out_joins_all_calls results0 :
  (forall s,
     reachable nodes cmd results0 s ->
     at_ s = Returned ->
     length (results s) = length nodes /\
     calls s = map (call_of cmd) nodes /\
     forall j node, nodes !! j = Some node ->
       exists y, replies s !! j = Some (Some y) /\
         results s !! j =
           Some (if is_ok (reply_err y) then (true, reply_text y)
                 else (false, to_string (reply_err y)))) /\
  (forall ys,
     length ys = length nodes ->
     exists s, reachable nodes cmd results0 s /\ at_ s = Returned /\
       replies s = map Some ys /\ results s = map result_of ys).
Proof.
  split.
  - intros s Hreach Hat.
    destruct (consistent_reachable results0 s Hreach) as (Hres & _ & Hcalls & Hpos & Hdone).
    rewrite Hat in Hpos. destruct Hpos as [Hlen Hfin]. split; [exact Hres|]. split.
    + rewrite Hcalls, Hlen. now rewrite take_ge.
    + intros j node Hj. destruct (Hfin j (lookup_lt_Some _ _ _ Hj)) as [y Hy].
      exists y. split; [exact Hy|]. exact (Hdone j y Hy).
  - intros ys Hlen. exact (fan_out_returns results0 ys Hlen).
Qed.

(** The results with which [call_remote_command] returns are a function
    of what the servers answer. *)
Lemma returned_results answer results0 s :
  reachable nodes cmd results0 s ->
  at_ s = Returned ->
  (forall j c y, calls s !! j = Some c -> replies s !! j = Some (Some y) -> y = answer c) ->
  results s = call_remote_command answer nodes cmd.
Proof.
  intros Hreach Hat Hans.
  destruct (consistent_reachable results0 s Hreach) as (Hlen & _ & Hcalls & Hpos & Hdone).
  rewrite Hat in Hpos. destruct Hpos as [Hall Hfin].
  assert (Hmade : calls s = map (call_of cmd) nodes)
    by (rewrite Hcalls, Hall; now rewrite take_ge).
  apply list_eq. intros j. unfold call_remote_command.
  change (map ?f ?l) with (f <$> l). rewrite list_lookup_fmap.
  destruct (nodes !! j) as [node|] eqn:Ej; simpl.
  - destruct (Hfin j (lookup_lt_Some _ _ _ Ej)) as [y Hy].
    rewrite (Hdone j y Hy). f_equal.
    rewrite (Hans j (call_of cmd node) y); [reflexivity| |exact Hy].
    rewrite Hmade. change (map ?f ?l) with (f <$> l). now rewrite list_lookup_fmap, Ej.
  - apply lookup_ge_None_2. rewrite Hlen. now apply lookup_ge_None_1.
Qed.

End remote_facts.

Lemma C9_fan_out_joins_all_calls_witness :
  exists s,
    remote.run remote.sample_nodes remote.sample_command remote.sample_run
      (remote.init remote.sample_nodes []) = Some s /\
    remote.results s =
      [(true, "a"); (true, "b"); (true, "c"); (false, "ERR_TIMEOUT"); (true, "e")]%string /\
    length (remote.results s) = length remote.sample_nodes.
Proof.
  eexists. split; [vm_compute; reflexivity|]. split; [reflexivity|].
  apply (proj1 (C9_fan_out_joins_all_calls remote.sample_nodes remote.sample_command [])).
  - exists remote.sample_run. vm_compute. reflexivity.
  - reflexivity.
Defined.

(** C6 (as stated, refuted).  The calls of the fan-out do not carry a
    timeout chosen by the caller: for the timeout 1000 the call made for a
    node carries 5000. *)
Lemma C6_fan_out_timeout_is_fixed :
  ~ (forall (t : Z) nodes cmd results0 s,
       remote.reachable nodes cmd results0 s ->
       Forall (fun c => remote.rpc_timeout_ms c = t) (remote.calls s)).
Proof.
  intros H.
  specialize (H 1000 remote.sample_nodes remote.sample_command []).
  destruct (remote.run remote.sample_nodes remote.sample_command [remote.Caller]
              (remote.init remote.sample_nodes [])) as [s|] eqn:E;
    [|vm_compute in E; discriminate E].
  specialize (H s (ex_intro _ [remote.Caller] E)).
  vm_compute in E. injection E as <-. simpl in H.
  apply Forall_inv in H. simpl in H. discriminate H.
Qed.

(** C6 (amended).  Every set, delete and geo set that the pipeline issues
    carries the timeout of its context, timeout_ms, which the caller has
    chosen; every call of the fan-out carries the fixed timeout of 5000
    milliseconds, the same for every node, and the caller of the fan-out
    has no say in it. *)
Theorem C6_timeouts_of_issued_operations :
  (forall context s,
     scan.reachable context s ->
     Forall (fun th =>
               Forall (scan.timeout_is (scan.timeout_ms context)) (scan.issued_by (scan.hist th)))
            (scan.threads s)) /\
  (forall nodes cmd results0 s,
     remote.reachable nodes cmd results0 s ->
     Forall (fun c => remote.rpc_timeout_ms c = 5000) (remote.calls s)).
Proof.
  split.
  - intros context s H.
    apply (Forall_impl _ _ _ (row_operations_carry_timeout context s H)).
    intros th [Hh _]. exact Hh.
  - intros nodes cmd results0 s H. exact (calls_carry_5000 nodes cmd results0 s H).
Qed.

Lemma C6_timeouts_of_issued_operations_witness :
  exists s,
    scan.run scan.sample_copy_2 scan.sample_set_issued (scan.init scan.sample_copy_2) = Some s /\
    map (fun th => scan.issued_by (scan.hist th)) (scan.threads s) =
      [[scan.Async_next]; [scan.Async_set "h" "s" "v" 5000]]%string /\
    Forall (fun th =>
              Forall (scan.timeout_is (scan.timeout_ms scan.sample_copy_2))
                     (scan.issued_by (scan.hist th)))
           (scan.threads s).
Proof.
  eexists. split; [vm_compute; reflexivity|]. split; [reflexivity|].
  apply (proj1 C6_timeouts_of_issued_operations).
  exists scan.sample_set_issued. vm_compute. reflexivity.
Defined.

(** ** The aggregation of the counters *)

Section stat_facts.
Import remote stat.

Lemma get_add_to f g v row :
  get g (add_to f v row) = if decide (g = f) then (get g row + v)%float else get g row.
Proof. destruct f, g; reflexivity. Qed.

Lemma row_name_add_to f v row : row_name (add_to f v row) = row_name row.
Proof. reflexivity. Qed.

Lemma get_set_row_name f s row : get f (set_row_name s row) = get f row.
Proof. destruct f; reflexivity. Qed.

(** [update_app_pegasus_perf_counter] adds the value to the counter that
    the name stands for, and leaves the row as it is for any other name. *)
Lemma update_spec row counter_name v :
  update_app_pegasus_perf_counter row counter_name v =
  match field_of_name counter_name with
  | Some f => (true, add_to f v row)
  | None => (false, row)
  end.
Proof.
  unfold update_app_pegasus_perf_counter, field_of_name.
  repeat (match goal with |- context [String.eqb counter_name ?s] =>
            destruct (String.eqb counter_name s); [reflexivity|] end).
  reflexivity.
Qed.

Lemma at_index_Some {A} (v : list A) i x :
  at_index v i = Some x <-> 0 <= i /\ v !! Z.to_nat i = Some x.
Proof.
  unfold at_index. destruct (Z.ltb_spec i 0); split.
  - discriminate.
  - intros [? _]. lia.
  - intros H'. split; [lia | exact H'].
  - intros [_ H']. exact H'.
Qed.

Lemma updated_row_added row counter_name v :
  let row' := (update_app_pegasus_perf_counter row counter_name v).2 in
  row_name row' = row_name row /\
  forall f, get f row' =
            if bool_decide (field_of_name counter_name = Some f)
            then (get f row + v)%float else get f row.
Proof.
  simpl. rewrite update_spec. destruct (field_of_name counter_name) as [f0|]; simpl.
  - split; [reflexivity|]. intros f. rewrite get_add_to.
    destruct (decide (f = f0)) as [->|Hne].
    + now rewrite bool_decide_eq_true_2.
    + rewrite bool_decide_eq_false_2; [reflexivity|]. intros [= ->]. now apply Hne.
  - split; [reflexivity|]. intros f. reflexivity.
Qed.

Lemma add_counter_of_app_added app_partitions app_row_idx n rows m rows' :
  add_counter_of_app app_partitions app_row_idx n rows m = Proceed rows' ->
  added (selected_of_app app_partitions app_row_idx) (n, m) rows rows'.
Proof.
  unfold add_counter_of_app, selected_of_app, added. simpl.
  destruct (parse_app_pegasus_perf_counter_name (dsn.name m)) as [[[a p] cn]|]; [|discriminate].
  assert (Hsame : forall sel : nat -> field -> bool,
            (forall i f, sel i f = false) ->
            length rows = length rows /\
            forall i row, rows !! i = Some row ->
              exists row', rows !! i = Some row' /\ row_name row' = row_name row /\
                forall f, get f row' =
                  if sel i f then (get f row + dsn.value m)%float else get f row).
  { intros sel Hsel. split; [reflexivity|]. intros i row Hi. exists row.
    repeat split; [exact Hi|]. intros f. now rewrite Hsel. }
  destruct (app_partitions !! a) as [pcs|].
  2: { intros [= <-]. apply (Hsame (fun _ _ => false)). reflexivity. }
  unfold owner. destruct (at_index pcs p) as [pc|]; [|discriminate]. simpl.
  destruct (Z.eqb_spec (dsn.primary pc) n) as [En|En]; simpl.
  2: { intros [= <-]. apply Hsame. intros i f.
       rewrite (bool_decide_eq_false_2 (Some (dsn.primary pc) = Some n)); [reflexivity|].
       intros [= E]. now apply En. }
  destruct (at_index rows (default 0 (app_row_idx !! a))) as [row0|] eqn:Eidx; [|discriminate].
  intros [= <-]. apply at_index_Some in Eidx. destruct Eidx as [Hnn Hrow0].
  split; [apply length_insert|]. intros i row Hi.
  destruct (updated_row_added row0 cn (dsn.value m)) as [Hname Hget].
  rewrite (bool_decide_eq_true_2 (Some (dsn.primary pc) = Some n)) by (now rewrite En).
  destruct (decide (Z.to_nat (default 0 (app_row_idx !! a)) = i)) as [<-|Hne].
  - rewrite list_lookup_insert_eq by (exact (lookup_lt_Some _ _ _ Hrow0)).
    assert (row = row0) as -> by congruence.
    eexists. split; [reflexivity|]. split; [exact Hname|]. intros f.
    rewrite Hget. rewrite (bool_decide_eq_true_2 (default 0 (app_row_idx !! a) = _)) by lia.
    reflexivity.
  - rewrite list_lookup_insert_ne by exact Hne. exists row. repeat split; [exact Hi|].
    intros f. rewrite (bool_decide_eq_false_2 (default 0 (app_row_idx !! a) = _)) by lia.
    reflexivity.
Qed.

Lemma add_counter_of_partition_added app_id count partitions n rows m rows' :
  add_counter_of_partition app_id count partitions n rows m = Proceed rows' ->
  added (fun i f r => counts_for_partition partitions (Z.of_nat i) f r) (n, m) rows rows'.
Proof.
  unfold add_counter_of_partition, counts_for_partition, added. simpl.
  destruct (parse_app_pegasus_perf_counter_name (dsn.name m)) as [[[a p] cn]|]; [|discriminate].
  destruct (a =? app_id); [|discriminate]. destruct (p <? count); [|discriminate]. simpl.
  unfold owner. destruct (at_index partitions p) as [pc|] eqn:Epc; [|discriminate]. simpl.
  apply at_index_Some in Epc. destruct Epc as [Hp _].
  destruct (Z.eqb_spec (dsn.primary pc) n) as [En|En]; simpl.
  2: { intros [= <-]. split; [reflexivity|]. intros i row Hi. exists row.
       repeat split; [exact Hi|]. intros f.
       rewrite (bool_decide_eq_false_2 (Some (dsn.primary pc) = Some n)).
       - now rewrite andb_false_r.
       - intros [= E]. now apply En. }
  destruct (at_index rows p) as [row0|] eqn:Eidx; [|discriminate].
  intros [= <-]. apply at_index_Some in Eidx. destruct Eidx as [_ Hrow0].
  split; [apply length_insert|]. intros i row Hi.
  destruct (updated_row_added row0 cn (dsn.value m)) as [Hname Hget].
  rewrite (bool_decide_eq_true_2 (Some (dsn.primary pc) = Some n)) by (now rewrite En).
  rewrite andb_true_r.
  destruct (decide (Z.to_nat p = i)) as [<-|Hne].
  - rewrite list_lookup_insert_eq by (exact (lookup_lt_Some _ _ _ Hrow0)).
    assert (row = row0) as -> by congruence.
    eexists. split; [reflexivity|]. split; [exact Hname|]. intros f.
    rewrite Hget. rewrite Z2Nat.id by exact Hp. now rewrite Z.eqb_refl.
  - rewrite list_lookup_insert_ne by exact Hne. exists row. repeat split; [exact Hi|].
    intros f. destruct (Z.eqb_spec p (Z.of_nat i)); [lia | reflexivity].
Qed.

Lemma accumulated_nil select rows : accumulated select [] rows rows.
Proof.
  split; [reflexivity|]. intros i row Hi. exists row. repeat split; exact Hi.
Qed.

Lemma accumulated_cons select r rs rows rows1 rows2 :
  added select r rows rows1 -> accumulated select rs rows1 rows2 ->
  accumulated select (r :: rs) rows rows2.
Proof.
  intros [Hl1 H1] [Hl2 H2]. split; [congruence|]. intros i row Hi.
  destruct (H1 i row Hi) as (row1 & Hi1 & Hn1 & Hg1).
  destruct (H2 i row1 Hi1) as (row2 & Hi2 & Hn2 & Hg2).
  exists row2. split; [exact Hi2|]. split; [congruence|].
  intros f. rewrite Hg2, Hg1. reflexivity.
Qed.

Lemma accumulated_app select rs1 rs2 rows rows1 rows2 :
  accumulated select rs1 rows rows1 -> accumulated select rs2 rows1 rows2 ->
  accumulated select (rs1 ++ rs2) rows rows2.
Proof.
  intros [Hl1 H1] [Hl2 H2]. split; [congruence|]. intros i row Hi.
  destruct (H1 i row Hi) as (row1 & Hi1 & Hn1 & Hg1).
  destruct (H2 i row1 Hi1) as (row2 & Hi2 & Hn2 & Hg2).
  exists row2. split; [exact Hi2|]. split; [congruence|].
  intros f. rewrite Hg2, Hg1. unfold sum_of. now rewrite fold_left_app.
Qed.

Lemma sum_of_ext select1 select2 rs : forall v,
  (forall r, select1 r = select2 r) -> sum_of select1 rs v = sum_of select2 rs v.
Proof.
  unfold sum_of. induction rs as [|r rs IH]; intros v Hext; simpl; [reflexivity|].
  rewrite (Hext r). now apply IH.
Qed.

Lemma accumulated_ext select1 select2 rs rows rows' :
  (forall i f r, (i < length rows)%nat -> select1 i f r = select2 i f r) ->
  accumulated select1 rs rows rows' -> accumulated select2 rs rows rows'.
Proof.
  intros Hext [Hl H]. split; [exact Hl|]. intros i row Hi.
  destruct (H i row Hi) as (row' & Hi' & Hn & Hg). exists row'.
  split; [exact Hi'|]. split; [exact Hn|]. intros f. rewrite Hg.
  apply sum_of_ext. intros r. apply Hext. exact (lookup_lt_Some _ _ _ Hi).
Qed.

Lemma node_failure_failed sc node res e : node_failure sc node res = Some e -> node_failed e.
Proof.
  unfold node_failure. destruct (negb res.1); [intros [= <-]; exact I|].
  destruct (json_decode sc res.2) as [info|]; [|intros [= <-]; exact I].
  destruct (negb _); [intros [= <-]; exact I | discriminate].
Qed.

Lemma first_failure_failed sc nodes : forall results e,
  first_failure sc nodes results = Some e -> node_failed e.
Proof.
  induction nodes as [|node nodes IH]; intros [|res results] e H; simpl in H;
    try discriminate.
  destruct (node_failure sc node res) as [e0|] eqn:E0.
  - injection H as <-. exact (node_failure_failed _ _ _ _ E0).
  - exact (IH _ _ H).
Qed.

Section loops.
Variable sc : shell_context.
Variable body : rpc_address -> list row_data -> dsn.perf_counter_metric -> outcome (list row_data).
Variable select : nat -> field -> report -> bool.
Hypothesis body_added : forall n rows m rows',
  body n rows m = Proceed rows' -> added select (n, m) rows rows'.
Hypothesis body_goes_on : forall n rows m e rows',
  body n rows m <> Returned_early e rows'.

Lemma for_each_counter_accumulated n counters : forall rows rows',
  for_each_counter (body n) counters rows = Proceed rows' ->
  accumulated select (map (fun m => (n, m)) counters) rows rows'.
Proof.
  induction counters as [|m counters IH]; intros rows rows' H; simpl in *.
  - injection H as <-. apply accumulated_nil.
  - destruct (body n rows m) as [rows1| | | |] eqn:E; try discriminate.
    exact (accumulated_cons _ _ _ _ _ _ (body_added _ _ _ _ E) (IH _ _ H)).
Qed.

Lemma for_each_counter_goes_on n counters : forall rows e rows',
  for_each_counter (body n) counters rows <> Returned_early e rows'.
Proof.
  induction counters as [|m counters IH]; intros rows e rows' H; simpl in *;
    [discriminate|].
  destruct (body n rows m) as [rows1|e1 r1| | |] eqn:E; try discriminate.
  - exact (IH _ _ _ H).
  - exact (body_goes_on _ _ _ _ _ E).
Qed.

(** A node whose result fails a test ends the loop; the counters of any
    other node are read. *)
Lemma add_counters_of_node_failure node res rows e :
  node_failure sc node res = Some e ->
  add_counters_of_node sc body node res rows = Returned_early e rows.
Proof.
  unfold node_failure, add_counters_of_node.
  destruct (negb res.1); [intros [= <-]; reflexivity|].
  destruct (json_decode sc res.2) as [info|]; [|intros [= <-]; reflexivity].
  destruct (negb _); [intros [= <-]; reflexivity | discriminate].
Qed.

Lemma add_counters_of_node_read node res rows :
  node_failure sc node res = None ->
  exists counters,
    reports_of_node sc node res = map (fun m => (address node, m)) counters /\
    add_counters_of_node sc body node res rows
    = for_each_counter (body (address node)) counters rows.
Proof.
  unfold node_failure, add_counters_of_node, reports_of_node.
  destruct (negb res.1); [discriminate|].
  destruct (json_decode sc res.2) as [info|]; [|discriminate].
  destruct (negb _); [discriminate|]. intros _. now exists (dsn.counters info).
Qed.

(** Whenever the loop over the nodes ends, by its last turn or by an early
    return, the reports that were read have been added to the rows. *)
Lemma for_each_node_returned nodes : forall results rows,
  length results = length nodes ->
  (forall rows',
     for_each_node sc body nodes results rows = Proceed rows' ->
     first_failure sc nodes results = None /\
     accumulated select (reports_read sc nodes results) rows rows') /\
  (forall e rows',
     for_each_node sc body nodes results rows = Returned_early e rows' ->
     first_failure sc nodes results = Some e /\
     accumulated select (reports_read sc nodes results) rows rows').
Proof.
  induction nodes as [|node nodes IH]; intros results rows Hlen; simpl.
  - split.
    + intros rows' [= <-]. destruct results; split; try reflexivity; apply accumulated_nil.
    + intros e rows' H. discriminate H.
  - destruct results as [|res results]; [discriminate|]. simpl in Hlen.
    destruct (node_failure sc node res) as [e0|] eqn:E0.
    + rewrite (add_counters_of_node_failure node res rows e0 E0). split.
      * intros rows' H. discriminate H.
      * intros e rows' [= <- <-]. split; [reflexivity | apply accumulated_nil].
    + destruct (add_counters_of_node_read node res rows E0) as (counters & Hrep & ->).
      rewrite Hrep.
      destruct (for_each_counter (body (address node)) counters rows)
        as [rows1|e1 r1| | |] eqn:E1.
      * pose proof (for_each_counter_accumulated _ _ _ _ E1) as Hacc1.
        destruct (IH results rows1 ltac:(lia)) as [IHp IHe]. split.
        -- intros rows' H. destruct (IHp rows' H) as [Hf Hacc].
           split; [exact Hf|]. exact (accumulated_app _ _ _ _ _ _ Hacc1 Hacc).
        -- intros e rows' H. destruct (IHe e rows' H) as [Hf Hacc].
           split; [exact Hf|]. exact (accumulated_app _ _ _ _ _ _ Hacc1 Hacc).
      * exfalso. exact (for_each_counter_goes_on _ _ _ _ _ E1).
      * split; [intros rows' H | intros e rows' H]; discriminate H.
      * split; [intros rows' H | intros e rows' H]; discriminate H.
      * split; [intros rows' H | intros e rows' H]; discriminate H.
Qed.

(** *** The loops end when the reports fit *)

Variable fits : report -> Prop.
Variable len : nat.
Hypothesis body_proceeds : forall n rows m,
  length rows = len -> fits (n, m) ->
  exists rows', body n rows m = Proceed rows' /\ length rows' = len.

Lemma for_each_counter_proceeds n counters : forall rows,
  length rows = len ->
  Forall (fun m => fits (n, m)) counters ->
  exists rows', for_each_counter (body n) counters rows = Proceed rows' /\ length rows' = len.
Proof.
  induction counters as [|m counters IH]; intros rows Hlen Hfit; simpl.
  - now exists rows.
  - apply Forall_cons in Hfit. destruct Hfit as [Hm Hfit].
    destruct (body_proceeds n rows m Hlen Hm) as (rows1 & -> & Hlen1).
    exact (IH rows1 Hlen1 Hfit).
Qed.

Lemma for_each_node_proceeds nodes : forall results rows,
  length results = length nodes ->
  length rows = len ->
  Forall fits (reports_read sc nodes results) ->
  exists rows',
    for_each_node sc body nodes results rows
    = match first_failure sc nodes results with
      | None => Proceed rows'
      | Some e => Returned_early e rows'
      end.
Proof.
  induction nodes as [|node nodes IH]; intros results rows Hlr Hlen Hfit; simpl.
  - exists rows. destruct results; reflexivity.
  - destruct results as [|res results]; [discriminate|]. simpl in Hlr, Hfit.
    destruct (node_failure sc node res) as [e0|] eqn:E0.
    + rewrite (add_counters_of_node_failure node res rows e0 E0). now exists rows.
    + destruct (add_counters_of_node_read node res rows E0) as (counters & Hrep & ->).
      rewrite Hrep in Hfit. apply Forall_app in Hfit. destruct Hfit as [Hfit1 Hfit2].
      destruct (for_each_counter_proceeds (address node) counters rows Hlen)
        as (rows1 & -> & Hlen1).
      { clear -Hfit1. induction counters as [|m counters IHc]; simpl in *; [constructor|].
        apply Forall_cons in Hfit1. destruct Hfit1 as [Hm Hms].
        constructor; [exact Hm | exact (IHc Hms)]. }
      exact (IH results rows1 ltac:(lia) Hlen1 Hfit2).
Qed.

End loops.

(** *** The loop bodies *)

Lemma add_counter_of_app_goes_on ap im n rows m e rows' :
  add_counter_of_app ap im n rows m <> Returned_early e rows'.
Proof.
  unfold add_counter_of_app.
  destruct (parse_app_pegasus_perf_counter_name _) as [[[a p] cn]|]; [|discriminate].
  destruct (ap !! a) as [parts|]; [|discriminate].
  destruct (at_index parts p) as [pc|]; [|discriminate].
  destruct (negb _); [discriminate|].
  destruct (at_index rows _); discriminate.
Qed.

Lemma add_counter_of_partition_goes_on id cnt parts n rows m e rows' :
  add_counter_of_partition id cnt parts n rows m <> Returned_early e rows'.
Proof.
  unfold add_counter_of_partition.
  destruct (parse_app_pegasus_perf_counter_name _) as [[[a p] cn]|]; [|discriminate].
  destruct (negb _); [discriminate|]. destruct (negb _); [discriminate|].
  destruct (at_index parts p) as [pc|]; [|discriminate].
  destruct (negb _); [discriminate|].
  destruct (at_index rows _); discriminate.
Qed.

Lemma at_index_in_range {A} (v : list A) i :
  0 <= i < Z.of_nat (length v) -> exists x, at_index v i = Some x.
Proof.
  intros Hi. destruct (lookup_lt_is_Some_2 v (Z.to_nat i)) as [x Hx]; [lia|].
  exists x. apply at_index_Some. split; [lia | exact Hx].
Qed.

Lemma add_counter_of_app_proceeds sc apps ap (im : gmap Z Z) len n rows m :
  (forall a, ap !! a = partitions_of sc apps a) ->
  (forall a parts, ap !! a = Some parts ->
     exists k, im !! a = Some (Z.of_nat k) /\ (k < len)%nat) ->
  length rows = len ->
  fits_apps sc apps (n, m) ->
  exists rows', add_counter_of_app ap im n rows m = Proceed rows' /\ length rows' = len.
Proof.
  intros Hmap Him Hlen. unfold fits_apps, add_counter_of_app. simpl.
  destruct (parse_app_pegasus_perf_counter_name (dsn.name m)) as [[[a p] cn]|]; [|intros []].
  rewrite <- Hmap. destruct (ap !! a) as [parts|] eqn:Ea; [|now exists rows].
  intros Hp. destruct (at_index_in_range parts p Hp) as [pc ->].
  destruct (negb _); [now exists rows|].
  destruct (Him a parts Ea) as (k & -> & Hk). simpl.
  destruct (at_index_in_range rows (Z.of_nat k)) as [row ->]; [lia|].
  eexists. split; [reflexivity|]. now rewrite length_insert.
Qed.

Lemma add_counter_of_partition_proceeds info parts n rows m :
  length rows = Z.to_nat (dsn.partition_count info) ->
  fits_partitions info parts (n, m) ->
  exists rows',
    add_counter_of_partition (dsn.app_id info) (dsn.partition_count info) parts n rows m
    = Proceed rows' /\
    length rows' = Z.to_nat (dsn.partition_count info).
Proof.
  intros Hlen. unfold fits_partitions, add_counter_of_partition. simpl.
  destruct (parse_app_pegasus_perf_counter_name (dsn.name m)) as [[[a p] cn]|]; [|intros []].
  intros (-> & Hp & Hparts). rewrite Z.eqb_refl. simpl.
  destruct (Z.ltb_spec p (dsn.partition_count info)) as [_|]; [|lia]. simpl.
  destruct (at_index_in_range parts p) as [pc ->]; [lia|].
  destruct (negb _); [now exists rows|].
  destruct (at_index_in_range rows p) as [row ->]; [lia|].
  eexists. split; [reflexivity|]. now rewrite length_insert.
Qed.


(** *** The rows of the applications *)

Lemma find_app_id_None (apps : list dsn.app_info) a :
  a ∉ dsn.app_id <$> apps -> find (fun app => dsn.app_id app =? a) apps = None.
Proof.
  induction apps as [|app apps IH]; simpl; [reflexivity|]. intros Hn.
  apply not_elem_of_cons in Hn. destruct Hn as [Hne Hn].
  destruct (Z.eqb_spec (dsn.app_id app) a); [congruence | now apply IH].
Qed.

Lemma find_app_id_Some (apps : list dsn.app_info) a app :
  find (fun app => dsn.app_id app =? a) apps = Some app ->
  dsn.app_id app = a /\ exists k, apps !! k = Some app.
Proof.
  induction apps as [|app0 apps IH]; simpl; [discriminate|].
  destruct (Z.eqb_spec (dsn.app_id app0) a) as [E|E].
  - intros [= <-]. split; [exact E|]. now exists 0%nat.
  - intros H. destruct (IH H) as [Ha [k Hk]]. split; [exact Ha|]. now exists (S k).
Qed.

Lemma find_app_id_lookup (apps : list dsn.app_info) k app :
  NoDup (dsn.app_id <$> apps) -> apps !! k = Some app ->
  find (fun app' => dsn.app_id app' =? dsn.app_id app) apps = Some app.
Proof.
  revert k. induction apps as [|app0 apps IH]; intros k Hnd Hk; [discriminate|].
  apply NoDup_cons in Hnd. destruct Hnd as [Hnotin Hnd]. simpl.
  destruct k as [|k]; simpl in Hk.
  - injection Hk as ->. now rewrite Z.eqb_refl.
  - destruct (Z.eqb_spec (dsn.app_id app0) (dsn.app_id app)) as [E|E]; [|now apply (IH k)].
    exfalso. apply Hnotin. rewrite E. apply list_elem_of_fmap_2.
    exact (list_elem_of_lookup_2 _ _ _ Hk).
Qed.

Lemma list_partitions_lookup sc nm apps : forall m0 m,
  NoDup (dsn.app_id <$> apps) ->
  list_partitions sc nm apps m0 = Proceed m ->
  forall a, m !! a = match partitions_of sc apps a with
                     | Some partitions => Some partitions
                     | None => m0 !! a
                     end.
Proof.
  induction apps as [|app apps IH]; intros m0 m Hnd H a; simpl in H.
  - injection H as <-. reflexivity.
  - apply NoDup_cons in Hnd. destruct Hnd as [Hnotin Hnd].
    destruct (list_app sc (dsn.app_name app)) as [[[err id] cnt] parts] eqn:El.
    destruct (negb (is_ok err)); [discriminate|].
    destruct (negb (id =? dsn.app_id app)); [discriminate|].
    destruct (negb (cnt =? dsn.partition_count app)); [discriminate|].
    rewrite (IH _ _ Hnd H a). unfold partitions_of. simpl.
    destruct (Z.eqb_spec (dsn.app_id app) a) as [E|E].
    + subst a. rewrite (find_app_id_None apps _ Hnotin), El. simpl.
      apply lookup_insert_eq.
    + destruct (find (fun app0 => dsn.app_id app0 =? a) apps); [reflexivity|].
      now apply lookup_insert_ne.
Qed.

Lemma list_partitions_distinct sc nm apps : forall m0 m,
  list_partitions sc nm apps m0 = Proceed m ->
  (size m <= size m0 + length apps)%nat /\
  (size m = (size m0 + length apps)%nat ->
   NoDup (dsn.app_id <$> apps) /\ forall a, a ∈ dsn.app_id <$> apps -> m0 !! a = None).
Proof.
  induction apps as [|app apps IH]; intros m0 m H; simpl in H.
  - injection H as <-. simpl. split; [lia|]. intros _. split; [constructor|].
    intros a Ha. inversion Ha.
  - destruct (list_app sc (dsn.app_name app)) as [[[err id] cnt] parts] eqn:El.
    destruct (negb (is_ok err)); [discriminate|].
    destruct (negb (id =? dsn.app_id app)); [discriminate|].
    destruct (negb (cnt =? dsn.partition_count app)); [discriminate|].
    destruct (IH _ _ H) as [Hle Heq]. rewrite map_size_insert in Hle, Heq.
    simpl. destruct (m0 !! dsn.app_id app) as [old|] eqn:E0; simpl in Hle, Heq.
    + split; [lia|]. intros Hs. lia.
    + split; [lia|]. intros Hs. destruct Heq as [Hnd Hfresh]; [lia|].
      assert (Hnotin : dsn.app_id app ∉ dsn.app_id <$> apps).
      { intros Hin. specialize (Hfresh _ Hin). rewrite lookup_insert_eq in Hfresh.
        discriminate Hfresh. }
      split; [apply NoDup_cons; split; assumption|].
      intros a Ha. apply elem_of_cons in Ha. destruct Ha as [->|Ha]; [exact E0|].
      specialize (Hfresh a Ha). rewrite lookup_insert_ne in Hfresh; [exact Hfresh|].
      intros E. subst a. exact (Hnotin Ha).
Qed.

Lemma name_rows_length apps : forall idx rows im x,
  0 <= idx ->
  name_rows apps idx rows im = Proceed x ->
  (length apps <= length rows - Z.to_nat idx)%nat.
Proof.
  induction apps as [|app apps IH]; intros idx rows im x Hidx H; simpl in *; [lia|].
  destruct (at_index rows idx) as [row|] eqn:Erow; [|discriminate].
  apply at_index_Some in Erow. destruct Erow as [_ Erow]. apply lookup_lt_Some in Erow.
  assert (Hidx' : 0 <= idx + 1) by lia.
  specialize (IH _ _ _ _ Hidx' H). rewrite length_insert in IH. lia.
Qed.

Lemma name_rows_spec apps : forall idx rows im rows' im',
  0 <= idx ->
  NoDup (dsn.app_id <$> apps) ->
  name_rows apps idx rows im = Proceed (rows', im') ->
  length rows' = length rows /\
  (forall i, (i < Z.to_nat idx)%nat -> rows' !! i = rows !! i) /\
  (forall a, a ∉ dsn.app_id <$> apps -> im' !! a = im !! a) /\
  (forall k app, apps !! k = Some app ->
     im' !! dsn.app_id app = Some (idx + Z.of_nat k) /\
     exists row, rows !! (Z.to_nat idx + k)%nat = Some row /\
       rows' !! (Z.to_nat idx + k)%nat = Some (set_row_name (dsn.app_name app) row)).
Proof.
  induction apps as [|app apps IH]; intros idx rows im rows' im' Hidx Hnd H; simpl in H.
  - injection H as <- <-. repeat split; try reflexivity; destruct k; discriminate.
  - apply NoDup_cons in Hnd. destruct Hnd as [Hnotin Hnd].
    destruct (at_index rows idx) as [row|] eqn:Erow; [|discriminate].
    apply at_index_Some in Erow. destruct Erow as [_ Erow].
    assert (Hidx' : 0 <= idx + 1) by lia.
    destruct (IH _ _ _ _ _ Hidx' Hnd H) as (Hlen & Hlow & Him & Hnamed).
    rewrite length_insert in Hlen.
    assert (Hidx1 : Z.to_nat (idx + 1) = S (Z.to_nat idx)) by lia.
    split; [exact Hlen|]. split; [|split].
    + intros i Hi. rewrite Hlow by lia. apply list_lookup_insert_ne. lia.
    + intros a Ha. apply not_elem_of_cons in Ha. destruct Ha as [Hne Ha].
      rewrite (Him a Ha). now apply lookup_insert_ne.
    + intros [|k] app' Hk; simpl in Hk.
      * injection Hk as <-. split.
        -- rewrite (Him _ Hnotin), lookup_insert_eq. f_equal. lia.
        -- exists row. rewrite Nat.add_0_r. split; [exact Erow|].
           rewrite Hlow by lia. apply list_lookup_insert_eq.
           exact (lookup_lt_Some _ _ _ Erow).
      * destruct (Hnamed k app' Hk) as (Hi & row1 & Hr1 & Hr1').
        split; [rewrite Hi; f_equal; lia|].
        rewrite Hidx1 in Hr1, Hr1'.
        replace (Z.to_nat idx + S k)%nat with (S (Z.to_nat idx) + k)%nat by lia.
        exists row1. split; [|exact Hr1'].
        rewrite list_lookup_insert_ne in Hr1 by lia. exact Hr1.
Qed.

Lemma lookup_resize_start rows0 n i :
  (i < n)%nat -> resize n empty_row rows0 !! i = Some (start_row rows0 i).
Proof.
  intros Hi. unfold start_row. destruct (rows0 !! i) as [row|] eqn:E; simpl.
  - rewrite lookup_resize; [exact E | exact Hi | exact (lookup_lt_Some _ _ _ E)].
  - apply lookup_resize_new; [now apply lookup_ge_None_1 | exact Hi].
Qed.

(** Under the maps that [get_app_stat] has built, the selection that the
    code makes for row [i] is the one stated for the application of that
    row. *)
Lemma selected_of_app_counts sc apps app_partitions (im : gmap Z Z) i app f r :
  NoDup (dsn.app_id <$> apps) ->
  (forall a, app_partitions !! a = partitions_of sc apps a) ->
  (forall k app', apps !! k = Some app' -> im !! dsn.app_id app' = Some (Z.of_nat k)) ->
  apps !! i = Some app ->
  selected_of_app app_partitions im i f r = counts_for_app sc apps app f r.
Proof.
  intros Hnd Hmap Him Hi. unfold selected_of_app, counts_for_app.
  destruct (parse_app_pegasus_perf_counter_name (dsn.name r.2)) as [[[a p] cn]|]; [|reflexivity].
  rewrite Hmap. destruct (partitions_of sc apps a) as [pcs|] eqn:Ep.
  2: { now rewrite andb_false_r. }
  unfold partitions_of in Ep.
  destruct (find (fun app0 => dsn.app_id app0 =? a) apps) as [app_a|] eqn:Ef; [|discriminate].
  destruct (find_app_id_Some _ _ _ Ef) as [Ha [k Hk]].
  rewrite <- Ha, (Him k app_a Hk). simpl.
  destruct (decide (k = i)) as [->|Hne].
  - assert (app_a = app) as -> by congruence.
    rewrite Z.eqb_refl, (bool_decide_eq_true_2 (Z.of_nat i = Z.of_nat i)) by reflexivity.
    now rewrite andb_true_r.
  - rewrite (bool_decide_eq_false_2 (Z.of_nat k = Z.of_nat i)) by lia.
    destruct (Z.eqb_spec (dsn.app_id app_a) (dsn.app_id app)) as [E|E].
    + exfalso. apply Hne. apply (NoDup_lookup _ _ _ (dsn.app_id app) Hnd).
      * rewrite list_lookup_fmap, Hk. simpl. now rewrite E.
      * rewrite list_lookup_fmap, Hi. reflexivity.
    + now rewrite andb_false_r.
Qed.

Lemma list_partitions_proceeds sc nm apps : forall m0,
  Forall (fun app => lists_well sc (dsn.app_name app) app) apps ->
  exists m, list_partitions sc nm apps m0 = Proceed m.
Proof.
  induction apps as [|app apps IH]; intros m0 Hwell; simpl; [now exists m0|].
  apply Forall_cons in Hwell. destruct Hwell as [(Hok & Hid & Hcnt) Hwell].
  destruct (list_app sc (dsn.app_name app)) as [[[err id] cnt] parts]. simpl in *.
  rewrite Hok, Hid, Hcnt, !Z.eqb_refl. simpl. apply IH, Hwell.
Qed.

Lemma list_partitions_early sc nm apps : forall m0 e m,
  list_partitions sc nm apps m0 = Returned_early e m -> e = List_app_failed nm.
Proof.
  induction apps as [|app apps IH]; intros m0 e m H; simpl in H; [discriminate|].
  destruct (list_app sc (dsn.app_name app)) as [[[err id] cnt] parts].
  destruct (negb (is_ok err)); [now injection H as <- _|].
  destruct (negb _); [discriminate|]. destruct (negb _); [discriminate|].
  exact (IH _ _ _ H).
Qed.

Lemma list_partitions_size sc nm apps : forall m0 m,
  NoDup (dsn.app_id <$> apps) ->
  (forall a, a ∈ dsn.app_id <$> apps -> m0 !! a = None) ->
  list_partitions sc nm apps m0 = Proceed m ->
  size m = (size m0 + length apps)%nat.
Proof.
  induction apps as [|app apps IH]; intros m0 m Hnd Hfresh H; simpl in H.
  - injection H as <-. simpl. lia.
  - apply NoDup_cons in Hnd. destruct Hnd as [Hnotin Hnd].
    destruct (list_app sc (dsn.app_name app)) as [[[err id] cnt] parts].
    destruct (negb (is_ok err)); [discriminate|].
    destruct (negb _); [discriminate|]. destruct (negb _); [discriminate|].
    rewrite (IH (<[dsn.app_id app := parts]> m0) m Hnd); [| |exact H].
    + rewrite map_size_insert, (Hfresh (dsn.app_id app)); [simpl; lia|]. simpl. left.
    + intros a Ha. rewrite lookup_insert_ne; [apply Hfresh; simpl; now right|].
      intros E. subst a. exact (Hnotin Ha).
Qed.

Lemma name_rows_proceeds apps : forall idx rows im,
  0 <= idx ->
  (Z.to_nat idx + length apps <= length rows)%nat ->
  exists x, name_rows apps idx rows im = Proceed x.
Proof.
  induction apps as [|app apps IH]; intros idx rows im Hidx Hlen; simpl; [eauto|].
  simpl in Hlen. destruct (at_index_in_range rows idx) as [row ->]; [lia|].
  apply IH; [lia|]. rewrite length_insert. lia.
Qed.

Lemma name_rows_goes_on apps : forall idx rows im e x,
  name_rows apps idx rows im <> Returned_early e x.
Proof.
  induction apps as [|app apps IH]; intros idx rows im e x H; simpl in H; [discriminate|].
  destruct (at_index rows idx); [|discriminate]. exact (IH _ _ _ _ _ H).
Qed.

Lemma stat_of_all_apps_rows sc nm apps rows0 ap rows1 im rs rows :
  list_partitions sc nm apps ∅ = Proceed ap ->
  name_rows apps 0 (resize (size ap) empty_row rows0) ∅ = Proceed (rows1, im) ->
  accumulated (selected_of_app ap im) rs rows1 rows ->
  rows_of_apps sc apps rs rows0 rows.
Proof.
  intros Elp Enr [Hlen2 Hacc].
  (* the rows are as many as the distinct identifiers: the second loop ends
     only if the identifiers of the applications are distinct *)
  pose proof (name_rows_length apps 0 _ ∅ _ (Z.le_refl 0) Enr) as Hfit.
  rewrite length_resize in Hfit.
  destruct (list_partitions_distinct sc nm apps ∅ ap Elp) as [Hle Hdistinct].
  rewrite map_size_empty in Hle, Hdistinct.
  assert (Hsize : size ap = length apps) by lia.
  destruct (Hdistinct Hsize) as [Hnd _].
  assert (Hmap : forall a, ap !! a = partitions_of sc apps a).
  { intros a. rewrite (list_partitions_lookup sc nm apps ∅ ap Hnd Elp a).
    destruct (partitions_of sc apps a); [reflexivity | apply lookup_empty]. }
  destruct (name_rows_spec apps 0 _ ∅ rows1 im (Z.le_refl 0) Hnd Enr)
    as (Hlen1 & _ & _ & Hnamed).
  rewrite length_resize, Hsize in Hlen1.
  split; [congruence|]. intros i app Hi.
  destruct (Hnamed i app Hi) as (Him & row0 & Hrow0 & Hrow1). simpl in Hrow0, Hrow1.
  rewrite lookup_resize_start in Hrow0
    by (rewrite Hsize; exact (lookup_lt_Some _ _ _ Hi)).
  injection Hrow0 as <-.
  destruct (Hacc i _ Hrow1) as (row & Hrow & Hname & Hget).
  exists row. split; [exact Hrow|]. split; [rewrite Hname; reflexivity|].
  intros f. rewrite Hget, get_set_row_name. apply sum_of_ext. intros r.
  apply (selected_of_app_counts sc apps ap im i app f r Hnd Hmap); [|exact Hi].
  intros k app' Hk. destruct (Hnamed k app' Hk) as [Hk' _]. rewrite Hk'. f_equal.
Qed.

(** Every way in which the branch for all the applications returns. *)
Lemma stat_of_all_apps_returned sc nm apps nodes results rows0 :
  length results = length nodes ->
  (forall rows,
     stat_of_all_apps sc nm apps nodes results rows0 = Proceed rows ->
     first_failure sc nodes results = None /\
     rows_of_apps sc apps (reports_read sc nodes results) rows0 rows) /\
  (forall e rows,
     stat_of_all_apps sc nm apps nodes results rows0 = Returned_early e rows ->
     (node_failed e ->
        first_failure sc nodes results = Some e /\
        rows_of_apps sc apps (reports_read sc nodes results) rows0 rows) /\
     (~ node_failed e -> rows = rows0)).
Proof.
  intros Hlen. unfold stat_of_all_apps.
  destruct (list_partitions sc nm apps ∅) as [ap|e0 m0| | |] eqn:Elp.
  2: { split; [intros rows H; discriminate H|]. intros e rows [= <- <-].
       rewrite (list_partitions_early _ _ _ _ _ _ Elp). split; [intros []|reflexivity]. }
  2-4: split; [intros rows H | intros e rows H]; discriminate H.
  destruct (name_rows apps 0 (resize (size ap) empty_row rows0) ∅)
    as [[rows1 im]|e1 [rows1 im]| | |] eqn:Enr.
  2: { exfalso. exact (name_rows_goes_on _ _ _ _ _ _ Enr). }
  2-4: split; [intros rows H | intros e rows H]; discriminate H.
  destruct (for_each_node_returned sc (add_counter_of_app ap im) (selected_of_app ap im)
              (add_counter_of_app_added ap im) (add_counter_of_app_goes_on ap im)
              nodes results rows1 Hlen) as [Hp He].
  split.
  - intros rows H. destruct (Hp rows H) as [Hf Hacc]. split; [exact Hf|].
    exact (stat_of_all_apps_rows _ _ _ _ _ _ _ _ _ Elp Enr Hacc).
  - intros e rows H. destruct (He e rows H) as [Hf Hacc]. split.
    + intros _. split; [exact Hf|].
      exact (stat_of_all_apps_rows _ _ _ _ _ _ _ _ _ Elp Enr Hacc).
    + intros Hn. exfalso. apply Hn. exact (first_failure_failed _ _ _ _ Hf).
Qed.

(** The branch for all the applications returns, by its end or early at
    the first node that fails a test, when the applications are listed
    well under distinct identifiers and the reports read fit. *)
Lemma stat_of_all_apps_total sc nm apps nodes results rows0 :
  length results = length nodes ->
  NoDup (dsn.app_id <$> apps) ->
  Forall (fun app => lists_well sc (dsn.app_name app) app) apps ->
  Forall (fits_apps sc apps) (reports_read sc nodes results) ->
  exists rows,
    stat_of_all_apps sc nm apps nodes results rows0
    = match first_failure sc nodes results with
      | None => Proceed rows
      | Some e => Returned_early e rows
      end.
Proof.
  intros Hlen Hnd Hwell Hfit. unfold stat_of_all_apps.
  destruct (list_partitions_proceeds sc nm apps ∅ Hwell) as [ap Elp]. rewrite Elp.
  assert (Hsize : size ap = length apps).
  { rewrite (list_partitions_size sc nm apps ∅ ap Hnd); [now rewrite map_size_empty| |exact Elp].
    intros a _. apply lookup_empty. }
  destruct (name_rows_proceeds apps 0 (resize (size ap) empty_row rows0) ∅) as [[rows1 im] Enr];
    [lia | rewrite length_resize; lia |].
  rewrite Enr.
  destruct (name_rows_spec apps 0 _ ∅ rows1 im (Z.le_refl 0) Hnd Enr)
    as (Hlen1 & _ & _ & Hnamed).
  rewrite length_resize, Hsize in Hlen1.
  assert (Hmap : forall a, ap !! a = partitions_of sc apps a).
  { intros a. rewrite (list_partitions_lookup sc nm apps ∅ ap Hnd Elp a).
    destruct (partitions_of sc apps a); [reflexivity | apply lookup_empty]. }
  apply (for_each_node_proceeds sc (add_counter_of_app ap im) (fits_apps sc apps) (length apps));
    [|exact Hlen|exact Hlen1|exact Hfit].
  intros n rows m Hrows Hm.
  apply (add_counter_of_app_proceeds sc apps ap im (length apps) n rows m Hmap); [|exact Hrows|exact Hm].
  intros a parts Ha. rewrite Hmap in Ha. unfold partitions_of in Ha.
  destruct (find (fun app => dsn.app_id app =? a) apps) as [app_a|] eqn:Ef; [|discriminate].
  destruct (find_app_id_Some _ _ _ Ef) as [<- [k Hk]].
  exists k. split; [|exact (lookup_lt_Some _ _ _ Hk)].
  destruct (Hnamed k app_a Hk) as [-> _]. f_equal.
Qed.

(** *** The rows of the partitions of one application *)

Lemma stat_of_one_app_returned sc nm info nodes results rows0 :
  length results = length nodes ->
  (forall rows,
     stat_of_one_app sc nm info nodes results rows0 = Proceed rows ->
     first_failure sc nodes results = None /\
     rows_of_partitions sc nm info (reports_read sc nodes results) rows0 rows) /\
  (forall e rows,
     stat_of_one_app sc nm info nodes results rows0 = Returned_early e rows ->
     (node_failed e ->
        first_failure sc nodes results = Some e /\
        rows_of_partitions sc nm info (reports_read sc nodes results) rows0 rows) /\
     (~ node_failed e -> rows = named_rows info rows0)).
Proof.
  intros Hlen. unfold stat_of_one_app, rows_of_partitions.
  destruct (dsn.partition_count info <? 0);
    [split; [intros rows H | intros e rows H]; discriminate H|].
  destruct (list_app sc nm) as [[[err id] cnt] parts] eqn:El.
  destruct (negb (is_ok err)).
  { split; [intros rows H; discriminate H|]. intros e rows [= <- <-].
    split; [intros [] | reflexivity]. }
  destruct (negb (id =? dsn.app_id info));
    [split; [intros rows H | intros e rows H]; discriminate H|].
  destruct (negb (cnt =? dsn.partition_count info));
    [split; [intros rows H | intros e rows H]; discriminate H|].
  destruct (for_each_node_returned sc (add_counter_of_partition id cnt parts)
              (fun i f r => counts_for_partition parts (Z.of_nat i) f r)
              (add_counter_of_partition_added id cnt parts)
              (add_counter_of_partition_goes_on id cnt parts)
              nodes results
              (imap (fun i row => set_row_name (string_of_int (Z.of_nat i)) row)
                    (resize (Z.to_nat (dsn.partition_count info)) empty_row rows0))
              Hlen) as [Hp He].
  assert (Hrows : forall rows,
            accumulated (fun i f r => counts_for_partition parts (Z.of_nat i) f r)
              (reports_read sc nodes results)
              (imap (fun i row => set_row_name (string_of_int (Z.of_nat i)) row)
                    (resize (Z.to_nat (dsn.partition_count info)) empty_row rows0))
              rows ->
            length rows = Z.to_nat (dsn.partition_count info) /\
            forall j, (j < Z.to_nat (dsn.partition_count info))%nat ->
              exists row, rows !! j = Some row /\
                row_name row = string_of_int (Z.of_nat j) /\
                forall f, get f row =
                  sum_of (counts_for_partition parts (Z.of_nat j) f)
                         (reports_read sc nodes results) (get f (start_row rows0 j))).
  { intros rows [Hlen2 Hacc]. rewrite length_imap, length_resize in Hlen2.
    split; [exact Hlen2|]. intros j Hj.
    destruct (Hacc j (set_row_name (string_of_int (Z.of_nat j)) (start_row rows0 j)))
      as (row & Hrow & Hname & Hget).
    { rewrite list_lookup_imap, lookup_resize_start by exact Hj. reflexivity. }
    exists row. split; [exact Hrow|]. split; [exact Hname|].
    intros f. rewrite Hget, get_set_row_name. reflexivity. }
  split.
  - intros rows H. destruct (Hp rows H) as [Hf Hacc]. split; [exact Hf | exact (Hrows _ Hacc)].
  - intros e rows H. destruct (He e rows H) as [Hf Hacc]. split.
    + intros _. split; [exact Hf | exact (Hrows _ Hacc)].
    + intros Hn. exfalso. apply Hn. exact (first_failure_failed _ _ _ _ Hf).
Qed.

Lemma stat_of_one_app_total sc nm info nodes results rows0 :
  length results = length nodes ->
  0 <= dsn.partition_count info ->
  lists_well sc nm info ->
  Forall (fits_partitions info (list_app sc nm).2) (reports_read sc nodes results) ->
  exists rows,
    stat_of_one_app sc nm info nodes results rows0
    = match first_failure sc nodes results with
      | None => Proceed rows
      | Some e => Returned_early e rows
      end.
Proof.
  intros Hlen Hcount (Hok & Hid & Hcnt) Hfit. unfold stat_of_one_app.
  destruct (Z.ltb_spec (dsn.partition_count info) 0) as [|_]; [lia|].
  destruct (list_app sc nm) as [[[err id] cnt] parts]. simpl in *.
  rewrite Hok, Hid, Hcnt, !Z.eqb_refl. simpl.
  apply (for_each_node_proceeds sc
           (add_counter_of_partition (dsn.app_id info) (dsn.partition_count info) parts)
           (fits_partitions info parts) (Z.to_nat (dsn.partition_count info)));
    [|exact Hlen| |exact Hfit].
  - intros n rows m. apply add_counter_of_partition_proceeds.
  - now rewrite length_imap, length_resize.
Qed.

Lemma fill_nodes_replica_servers sc :
  (fill_nodes sc "replica-server" []).1 = is_ok (list_nodes sc).1.
Proof.
  unfold fill_nodes. simpl. destruct (list_nodes sc) as [err rs]. simpl.
  destruct (is_ok err); reflexivity.
Qed.

Lemma call_remote_command_length ans nodes c :
  length (call_remote_command ans nodes c) = length nodes.
Proof. unfold call_remote_command. apply length_map. Qed.

(** A counter whose name is none of the known ones leaves the rows as they
    are, and the loop goes on. *)
Lemma unrecognized_counter_is_ignored (rows : list row_data) (idx : nat) row counter_name v :
  field_of_name counter_name = None ->
  rows !! idx = Some row ->
  <[idx := (update_app_pegasus_perf_counter row counter_name v).2]> rows = rows.
Proof.
  intros Hf Hrow. rewrite update_spec, Hf. simpl. now apply list_insert_id.
Qed.


(** C10.  With no application named, the partition index of a parsed
    counter indexes the list of partition configurations of its
    application without a test: if the index is not less than the length
    of the list (or is negative) the access is out of range, and it is in
    range only if the index is less than the length.  With an application
    named, an index that is not less than the partition count fails the
    assertion before the access. *)
Theorem C10_partition_index_is_not_checked
    app_partitions app_row_idx node_addr rows m a p counter_name partitions :
  parse_app_pegasus_perf_counter_name (dsn.name m) = Some (a, p, counter_name) ->
  app_partitions !! a = Some partitions ->
  (~ (0 <= p < Z.of_nat (length partitions)) ->
     add_counter_of_app app_partitions app_row_idx node_addr rows m = Out_of_range) /\
  (forall pc, at_index partitions p = Some pc -> p < Z.of_nat (length partitions)) /\
  (forall app_id partition_count partitions',
     partition_count <= p ->
     add_counter_of_partition app_id partition_count partitions' node_addr rows m = Asserted).
Proof.
  intros Hparse Hap. split; [|split].
  - intros Hout. unfold add_counter_of_app. rewrite Hparse, Hap.
    destruct (at_index partitions p) as [pc|] eqn:E; [|reflexivity].
    apply at_index_Some in E. destruct E as [Hp E]. apply lookup_lt_Some in E. lia.
  - intros pc E. apply at_index_Some in E. destruct E as [Hp E].
    apply lookup_lt_Some in E. lia.
  - intros app_id count parts' Hge. unfold add_counter_of_partition. rewrite Hparse.
    destruct (negb (a =? app_id)); [reflexivity|].
    destruct (Z.ltb_spec p count); [lia | reflexivity].
Qed.

End stat_facts.


Lemma C10_partition_index_is_not_checked_witness :
  stat.add_counter_of_app {[1 := stat.sample_partitions]} ∅ 103 [stat.empty_row]
    (stat.sample_metric "get_qps@1.7" 10) = stat.Out_of_range /\
  stat.get_app_stat (stat.sample_cluster stat.sample_stray) "" [] = stat.Out_of_range /\
  stat.get_app_stat (stat.sample_cluster stat.sample_stray) "temp" [] = stat.Asserted.
Proof.
  split; [|split; vm_compute; reflexivity].
  refine (proj1 (C10_partition_index_is_not_checked
                   {[1 := stat.sample_partitions]} ∅ 103 [stat.empty_row]
                   (stat.sample_metric "get_qps@1.7" 10) 1 7 "get_qps"
                   stat.sample_partitions _ _) _).
  - vm_compute. reflexivity.
  - reflexivity.
  - simpl. lia.
Defined.
